(** * PIN attempt lockout and the root authentication gate

    A shallow embedding of [packages/core/src/screens/PINEnter.tsx] (the
    [PINEnter] component's callbacks) and of the [RootStack] component that
    follows it in the same file.

    Conventions.
    - Attempt counts, thresholds, timestamps and durations are integer-valued
      JavaScript numbers well inside the exactly representable range, so [+],
      [-] and the comparisons coincide with those of [Z].  The remainder
      operator [%] is the one place where a non-integer can appear ([x % 0] is
      [NaN]); its result type [number] keeps that value.  A negative zero is
      indistinguishable from zero for every operation used here and is
      represented by [0].
    - A React callback reads the [store] snapshot of the render that created
      it; a [dispatch] inside the callback does not change what it reads.  A
      callback is therefore a function of that snapshot (and of the outcomes
      of the awaited collaborators) producing the sequence of effects it
      performs. *)

From Stdlib Require Import ZArith Lia Bool List String.
From stdpp Require Import base gmap.
Import ListNotations.

Local Open Scope Z_scope.

(** ** JavaScript values *)

(** The result of [%]. *)
Inductive number : Type :=
| Num (z : Z)
| NaN.

(** [a % b] on integer operands: the remainder has the sign of the dividend;
    a zero divisor gives [NaN] and raises nothing. *)
Definition js_rem (a b : number) : number :=
  match a, b with
  | Num x, Num y => if y =? 0 then NaN else Num (Z.rem x y)
  | _, _ => NaN
  end.

Definition js_sub (a b : number) : number :=
  match a, b with
  | Num x, Num y => Num (x - y)
  | _, _ => NaN
  end.

(** [a > b], [a === b] and [!a]: every comparison with [NaN] is false, and
    [NaN] and [0] are the falsy numbers. *)
Definition js_gt (a : number) (b : Z) : bool :=
  match a with Num x => b <? x | NaN => false end.

Definition js_strict_eq (a : number) (b : Z) : bool :=
  match a with Num x => x =? b | NaN => false end.

Definition js_not (a : number) : bool :=
  match a with Num x => x =? 0 | NaN => true end.

(** [!penalty] for [penalty : number | undefined]. *)
Definition js_not_opt (p : option Z) : bool :=
  match p with Some d => d =? 0 | None => true end.

(** ** Data model *)

(** [store.loginAttempt]. *)
Record LoginAttemptState : Type := {
  loginAttempts : Z;
  lockoutDate : option Z;
  servedPenalty : option bool;
}.

(** [attemptLockoutConfig.thresholdRules]. *)
Record ThresholdRules : Type := {
  threshold : Z;
  increment : Z;
  thresholdPenaltyDuration : Z;
}.

(** [attemptLockoutConfig]: [baseRules] is an object indexed by the attempt
    count. *)
Record AttemptLockoutConfig : Type := {
  baseRules : gmap Z Z;
  thresholdRules : ThresholdRules;
}.

(** ** [getLockoutPenalty] (PINEnter.tsx, lines 208-218) *)

Definition getLockoutPenalty (cfg : AttemptLockoutConfig) (attempts : Z) : option Z :=
  let penalty := baseRules cfg !! attempts in
  if js_not_opt penalty
     && (threshold (thresholdRules cfg) <=? attempts)
     && js_not (js_rem (Num attempts) (Num (increment (thresholdRules cfg))))
  then Some (thresholdPenaltyDuration (thresholdRules cfg))
  else penalty.

(** The reference definition of [computeLockoutPenalty], written from the
    specification's wording: an exact base rule first, then the threshold
    rule, then absent. *)
Definition computeLockoutPenalty_spec (cfg : AttemptLockoutConfig) (attempts : Z) : option Z :=
  match baseRules cfg !! attempts with
  | Some d => Some d
  | None =>
      if (threshold (thresholdRules cfg) <=? attempts)
         && (attempts mod increment (thresholdRules cfg) =? 0)
      then Some (thresholdPenaltyDuration (thresholdRules cfg))
      else None
  end.

(** [attemptsLeft] (PINEnter.tsx, lines 297-298). *)
Definition attemptsLeft (cfg : AttemptLockoutConfig) (newAttempt : Z) : number :=
  let inc := Num (increment (thresholdRules cfg)) in
  js_rem (js_sub inc (js_rem (Num newAttempt) inc)) inc.

(** Configurations of the specification's scenarios. *)
Definition scenarioConfig : AttemptLockoutConfig :=
  {| baseRules := {[ 3 := 30000 ]};
     thresholdRules :=
       {| threshold := 5; increment := 2; thresholdPenaltyDuration := 60000 |} |}.

Definition zeroRuleConfig : AttemptLockoutConfig :=
  {| baseRules := {[ 10 := 0 ]};
     thresholdRules :=
       {| threshold := 5; increment := 5; thresholdPenaltyDuration := 3600000 |} |}.

(** ** Store, actions and effects *)

Inductive PINEntryUsage : Type :=
| PINCheck
| WalletUnlock
| ChangeBiometrics.

Record LockoutState : Type := { displayNotification : bool }.
Record OnboardingState : Type := { postAuthScreens : list string }.
Record AuthenticationState : Type := { didAuthenticate : bool }.

(** The part of the application store these components read. *)
Record State : Type := {
  loginAttempt : LoginAttemptState;
  lockout : LockoutState;
  onboarding : OnboardingState;
  authentication : AuthenticationState;
}.

(** The object literal carried by an [ATTEMPT_UPDATED] action.  A key may be
    missing from the literal ([None]); a key that is written may hold
    [undefined] ([Some None]). *)
Record AttemptPayload : Type := {
  payload_loginAttempts : option Z;
  payload_lockoutDate : option (option Z);
  payload_servedPenalty : option (option bool);
}.

Inductive DispatchAction : Type :=
| ATTEMPT_UPDATED (payload : AttemptPayload)
| LOCKOUT_UPDATED (payload_displayNotification : bool).

(** Translated texts, by their translation key. *)
Inductive Message : Type :=
| IncorrectPINTries (tries : number)
| LastTryBeforeTimeout
| PINTooShort.

Record BifoldError : Type := {
  title : string;
  description : string;
  message : string;
  code : Z;
}.

(** What a callback does to the outside: component state setters, store
    dispatches, navigation and the [ERROR_ADDED] device event. *)
Inductive Effect : Type :=
| SetContinueEnabled (enabled : bool)
| SetAlertModalVisible (visible : bool)
| SetAlertModalMessage (m : Message)
| SetInlineMessageField (m : Message)
| Dispatch (a : DispatchAction)
| SetAuthenticated (status : bool)
| Navigate (screen : string)
| EmitErrorAdded (e : BifoldError).

(** ** Effects and exceptions

    A callback run is the list of effects performed so far together with how
    the run ended: with a value, or with a thrown [Error] (kept by its
    [message]). *)
Inductive Completion (A : Type) : Type :=
| Returned (a : A)
| Threw (err : string).
Arguments Returned {A} a.
Arguments Threw {A} err.

Definition Run (A : Type) : Type := (list Effect * Completion A)%type.

Definition ret {A : Type} (a : A) : Run A := ([], Returned a).

Definition bind {A B : Type} (m : Run A) (k : A -> Run B) : Run B :=
  match m with
  | (done, Returned a) => let (more, r) := k a in (done ++ more, r)
  | (done, Threw err) => (done, Threw err)
  end.

Definition perform (e : Effect) : Run unit := ([e], Returned tt).

Definition throw {A : Type} (err : string) : Run A := ([], Threw err).

(** [await] of a collaborator's promise: no effect of this component, and the
    promise's outcome. *)
Definition await {A : Type} (outcome : Completion A) : Run A := ([], outcome).

(** [try { body } catch (err) { handler }]. *)
Definition try_catch {A : Type} (body : Run A) (handler : string -> Run A) : Run A :=
  match body with
  | (done, Returned a) => (done, Returned a)
  | (done, Threw err) => let (more, r) := handler err in (done ++ more, r)
  end.

Notation "'let*' x := m 'in' k" := (bind m (fun x => k))
  (at level 10, x name, m at level 100, k at level 200).
Notation "m ;; k" := (bind m (fun _ => k))
  (at level 100, k at level 200, right associativity).

Definition effects {A : Type} (r : Run A) : list Effect := fst r.
Definition completion {A : Type} (r : Run A) : Completion A := snd r.

(** ** The callbacks of [PINEnter] *)

Record WalletSecret : Type := { key : string; salt : string }.

Section PINEnter.

(** The render the callbacks belong to: its props, the configuration and
    inline-message service, the store snapshot, the clock read by
    [Date.now()], and the awaited collaborators of [useAuth] and
    [utils/crypto], each given by the outcome of its promise. *)
Variable usage : PINEntryUsage.
Variable cfg : AttemptLockoutConfig.
Variable inlineMessagesEnabled : bool.
Variable minPINLength : nat.
Variable store : State.
Variable now : Z.
Variable checkWalletPIN : string -> Completion bool.
Variable getWalletSecret : Completion (option WalletSecret).
Variable hashPIN : string -> string -> Completion string.

(** Lines 148-155. *)
Definition gotoPostAuthScreens : Run unit :=
  match postAuthScreens (onboarding store) with
  | screen :: _ => if String.eqb screen "" then ret tt else perform (Navigate screen)
  | [] => ret tt
  end.

(** Lines 178-189. *)
Definition unMarkServedPenalty : Run unit :=
  perform (Dispatch (ATTEMPT_UPDATED
    {| payload_loginAttempts := Some (loginAttempts (loginAttempt store));
       payload_lockoutDate := Some None;
       payload_servedPenalty := Some None |})).

(** Lines 191-206.  The call is not awaited; its body has no [await], so
    the dispatch happens before the call returns. *)
Definition attemptLockout (penalty : Z) : Run unit :=
  perform (Dispatch (ATTEMPT_UPDATED
    {| payload_loginAttempts := Some (loginAttempts (loginAttempt store) + 1);
       payload_lockoutDate := Some (Some (now + penalty));
       payload_servedPenalty := Some (Some false) |})).

(** Lines 220-242. *)
Definition loadWalletCredentials : Run unit :=
  match usage with
  | PINCheck | ChangeBiometrics => ret tt
  | WalletUnlock =>
      let* walletSecret := await getWalletSecret in
      match walletSecret with
      | Some _ =>
          perform (Dispatch (LOCKOUT_UPDATED false)) ;;
          perform (Dispatch (ATTEMPT_UPDATED
            {| payload_loginAttempts := Some 0;
               payload_lockoutDate := None;
               payload_servedPenalty := None |})) ;;
          perform (SetAuthenticated true) ;;
          gotoPostAuthScreens
      | None => ret tt
      end
  end.

(** The warning of lines 305-313 and 315-323: inline when the inline-message
    service is enabled, in the alert modal's body otherwise. *)
Definition warn (m : Message) : Run unit :=
  if inlineMessagesEnabled
  then perform (SetInlineMessageField m)
  else perform (SetAlertModalMessage m).

(** Lines 294-341 of [unlockWalletWithPIN]: the branch taken when
    [checkWalletPIN] answered [false]. *)
Definition recordFailedAttempt : Run unit :=
  let newAttempt := loginAttempts (loginAttempt store) + 1 in
  let left := attemptsLeft cfg newAttempt in
  (if negb inlineMessagesEnabled && js_not_opt (getLockoutPenalty cfg newAttempt)
   then perform (SetAlertModalVisible true)
   else ret tt) ;;
  if js_gt left 1 then
    warn (IncorrectPINTries left) ;;
    perform (SetContinueEnabled true) ;;
    perform (Dispatch (ATTEMPT_UPDATED
      {| payload_loginAttempts := Some newAttempt;
         payload_lockoutDate := None;
         payload_servedPenalty := None |}))
  else if js_strict_eq left 1 then
    warn LastTryBeforeTimeout ;;
    perform (SetContinueEnabled true) ;;
    perform (Dispatch (ATTEMPT_UPDATED
      {| payload_loginAttempts := Some newAttempt;
         payload_lockoutDate := None;
         payload_servedPenalty := None |}))
  else
    match getLockoutPenalty cfg newAttempt with
    | Some penalty => attemptLockout penalty
    | None => ret tt
    end.

(** Lines 343-356 of [unlockWalletWithPIN]: the continuation taken when
    [checkWalletPIN] answered [true]. *)
Definition recordSuccessfulAttempt : Run unit :=
  perform (Dispatch (ATTEMPT_UPDATED
    {| payload_loginAttempts := Some 0;
       payload_lockoutDate := None;
       payload_servedPenalty := None |})) ;;
  perform (Dispatch (LOCKOUT_UPDATED false)) ;;
  perform (SetAuthenticated true) ;;
  gotoPostAuthScreens.

(** Lines 282-380. *)
Definition unlockWalletWithPIN (PIN : string) : Run unit :=
  try_catch
    (perform (SetContinueEnabled false) ;;
     let* result := await (checkWalletPIN PIN) in
     (match servedPenalty (loginAttempt store) with
      | Some true => unMarkServedPenalty
      | _ => ret tt
      end) ;;
     if negb result then recordFailedAttempt else recordSuccessfulAttempt)
    (fun err =>
       perform (EmitErrorAdded
         {| title := "Error.Title1041"; description := "Error.Message1041";
            message := err; code := 1041 |})).

(** Lines 402-430. *)
Definition verifyPIN (PIN : string) : Run unit :=
  try_catch
    (let* walletSecret := await getWalletSecret in
     match walletSecret with
     | None => throw "Wallet secret not found"
     | Some secret =>
         let* hashed := await (hashPIN PIN (salt secret)) in
         if negb (String.eqb (key secret) hashed)
         then perform (SetAlertModalVisible true)
         else perform (SetAuthenticated true)
     end)
    (fun err =>
       perform (EmitErrorAdded
         {| title := "Error.Title1042"; description := "Error.Message1042";
            message := err; code := 1042 |})).

(** Lines 433-456. *)
Definition onPINInputCompleted (PIN : string) : Run unit :=
  if inlineMessagesEnabled && (String.length PIN <? minPINLength)%nat
  then perform (SetInlineMessageField PINTooShort)
  else
    perform (SetContinueEnabled false) ;;
    (match usage with
     | PINCheck | ChangeBiometrics => verifyPIN PIN
     | WalletUnlock => ret tt
     end) ;;
    (match usage with
     | WalletUnlock => unlockWalletWithPIN PIN
     | _ => ret tt
     end).

End PINEnter.

(** ** The store's reducer *)

(** Modelled from the spec: the reducer behind [dispatch]
    ([contexts/reducers/store]) is not among the sources.  The specification
    describes [dispatch] as applying state-patch actions on the single event
    loop, last write wins: an [ATTEMPT_UPDATED] payload overwrites the keys
    it carries (a key carrying [undefined] clears the field) and leaves the
    other fields of [loginAttempt] as they were; [LOCKOUT_UPDATED] sets the
    lockout notification flag. *)
Definition reducer (s : State) (a : DispatchAction) : State :=
  match a with
  | ATTEMPT_UPDATED p =>
      let old := loginAttempt s in
      {| loginAttempt :=
           {| loginAttempts := default (loginAttempts old) (payload_loginAttempts p);
              lockoutDate := default (lockoutDate old) (payload_lockoutDate p);
              servedPenalty := default (servedPenalty old) (payload_servedPenalty p) |};
         lockout := lockout s;
         onboarding := onboarding s;
         authentication := authentication s |}
  | LOCKOUT_UPDATED b =>
      {| loginAttempt := loginAttempt s;
         lockout := {| displayNotification := b |};
         onboarding := onboarding s;
         authentication := authentication s |}
  end.

(** The actions a run dispatched, in order. *)
Fixpoint dispatched (es : list Effect) : list DispatchAction :=
  match es with
  | [] => []
  | Dispatch a :: rest => a :: dispatched rest
  | _ :: rest => dispatched rest
  end.

(** The store after a run's dispatches have been reduced. *)
Definition settle {A : Type} (s : State) (r : Run A) : State :=
  fold_left reducer (dispatched (effects r)) s.

(** The texts a run put on screen, inline or in the alert modal. *)
Fixpoint warnings (es : list Effect) : list Message :=
  match es with
  | [] => []
  | SetAlertModalMessage m :: rest => m :: warnings rest
  | SetInlineMessageField m :: rest => m :: warnings rest
  | _ :: rest => warnings rest
  end.

(** The error events a run emitted. *)
Fixpoint errors (es : list Effect) : list BifoldError :=
  match es with
  | [] => []
  | EmitErrorAdded e :: rest => e :: errors rest
  | _ :: rest => errors rest
  end.

(** ** [RootStack] *)

Inductive Stack : Type :=
| MainStack
| OnboardingStack.

(** A [useMemo] cell: the dependencies of the last computation and its
    value. *)
Record MemoCell : Type := {
  memo_deps : bool * bool;
  memo_value : bool;
}.

(** [useMemo(factory, deps)]: the cached value is kept while the dependencies
    are unchanged and recomputed otherwise. *)
Definition useMemo (cell : option MemoCell) (factory : unit -> bool)
    (deps : bool * bool) : MemoCell :=
  match cell with
  | Some c =>
      if decide (memo_deps c = deps) then c
      else {| memo_deps := deps; memo_value := factory tt |}
  | None => {| memo_deps := deps; memo_value := factory tt |}
  end.

(** The hooks' state of a mounted [RootStack]. *)
Record RootStackState : Type := {
  onboardingComplete : bool;
  shouldRenderMainStack_memo : option MemoCell;
}.

(** [useState(false)] and an empty memo cell at mount. *)
Definition RootStack_mounted : RootStackState :=
  {| onboardingComplete := false; shouldRenderMainStack_memo := None |}.

(** Lines 655-658. *)
Definition shouldRenderMainStack (st : RootStackState) (store : State) : MemoCell :=
  useMemo (shouldRenderMainStack_memo st)
    (fun _ => onboardingComplete st && didAuthenticate (authentication store))
    (onboardingComplete st, didAuthenticate (authentication store)).

(** One render of [RootStack] (lines 643-691): the hooks' state after it and
    the stack it returns. *)
Definition RootStack (st : RootStackState) (store : State) : RootStackState * Stack :=
  let cell := shouldRenderMainStack st store in
  ({| onboardingComplete := onboardingComplete st;
      shouldRenderMainStack_memo := Some cell |},
   if memo_value cell then MainStack else OnboardingStack).

(** What makes a mounted [RootStack] render again: the
    [DID_COMPLETE_ONBOARDING] device event, whose listener (lines 660-666)
    calls [setOnboardingComplete(true)], and a new store snapshot. *)
Inductive GateEvent : Type :=
| DID_COMPLETE_ONBOARDING
| StoreChanged (store' : State).

Record Session : Type := {
  hooks : RootStackState;
  snapshot : State;
  rendered : Stack;
}.

Definition mount (store : State) : Session :=
  let (st, out) := RootStack RootStack_mounted store in
  {| hooks := st; snapshot := store; rendered := out |}.

Definition step (s : Session) (ev : GateEvent) : Session :=
  match ev with
  | DID_COMPLETE_ONBOARDING =>
      let st := {| onboardingComplete := true;
                   shouldRenderMainStack_memo := shouldRenderMainStack_memo (hooks s) |} in
      let (st', out) := RootStack st (snapshot s) in
      {| hooks := st'; snapshot := snapshot s; rendered := out |}
  | StoreChanged store' =>
      let (st', out) := RootStack (hooks s) store' in
      {| hooks := st'; snapshot := store'; rendered := out |}
  end.

Definition run (store : State) (evs : list GateEvent) : Session :=
  fold_left step evs (mount store).

(** ** Concrete stores of the scenarios *)

Definition storeWith (attempts : Z) (date : option Z) (served : option bool) : State :=
  {| loginAttempt :=
       {| loginAttempts := attempts; lockoutDate := date; servedPenalty := served |};
     lockout := {| displayNotification := true |};
     onboarding := {| postAuthScreens := [] |};
     authentication := {| didAuthenticate := false |} |}.

Definition authenticatedStore : State :=
  {| loginAttempt :=
       {| loginAttempts := 0; lockoutDate := None; servedPenalty := None |};
     lockout := {| displayNotification := false |};
     onboarding := {| postAuthScreens := [] |};
     authentication := {| didAuthenticate := true |} |}.

Definition incrementOneConfig : AttemptLockoutConfig :=
  {| baseRules := {[ 3 := 30000 ]};
     thresholdRules :=
       {| threshold := 5; increment := 1; thresholdPenaltyDuration := 60000 |} |}.

(** ** Invariants used by the proofs *)

(** A memo cell holds the conjunction of the dependencies it was computed
    from. *)
Definition cell_ok (c : MemoCell) : Prop :=
  memo_value c = fst (memo_deps c) && snd (memo_deps c).

Definition memo_ok (m : option MemoCell) : Prop :=
  match m with
  | Some c => cell_ok c
  | None => True
  end.

(** The memo cell is sound and the stack on screen is the one the current
    signals call for. *)
Definition session_ok (s : Session) : Prop :=
  memo_ok (shouldRenderMainStack_memo (hooks s)) /\
  rendered s =
    if onboardingComplete (hooks s) && didAuthenticate (authentication (snapshot s))
    then MainStack else OnboardingStack.

(** The ways the verification step of [verifyPIN] can throw with message
    [err]: [getWalletSecret] rejects, it resolves to no secret (the callback
    itself throws), or [hashPIN] rejects. *)
Definition verifyPIN_throws (getWalletSecret : Completion (option WalletSecret))
    (hashPIN : string -> string -> Completion string) (PIN err : string) : Prop :=
  getWalletSecret = Threw err \/
  (getWalletSecret = Returned None /\ err = "Wallet secret not found"%string) \/
  (exists secret, getWalletSecret = Returned (Some secret) /\
                  hashPIN PIN (salt secret) = Threw err).

(** ** The rest of [PINEnter] *)

(** [isContinueDisabled] (lines 157-163), over the component's
    [continueEnabled] and [PIN] state. *)
Definition isContinueDisabled (inlineMessagesEnabled continueEnabled : bool)
    (minPINLength : nat) (PIN : string) : bool :=
  if inlineMessagesEnabled then negb continueEnabled
  else negb continueEnabled || (String.length PIN <? minPINLength)%nat.

(** The effect of lines 270-276: the value given to
    [setDisplayLockoutWarning]. *)
Definition displayLockoutWarning (cfg : AttemptLockoutConfig) (store : State) : bool :=
  negb (js_not_opt (getLockoutPenalty cfg (loginAttempts (loginAttempt store) + 1))).

(** Lines 54-55 and 132-146: the hidden developer-menu trigger.  The counter
    is the [developerOptionCount] ref; firing dispatches
    [ENABLE_DEVELOPER_MODE] with [true] and navigates to the developer
    screen. *)
Definition touchCountToEnableBiometrics : Z := 9.

Inductive DeveloperEffect : Type :=
| EnableDeveloperMode (enabled : bool)
| NavigateDeveloper.

Definition incrementDeveloperMenuCounter (developerOptionCount : Z)
    : Z * list DeveloperEffect :=
  if touchCountToEnableBiometrics <=? developerOptionCount
  then (0, [EnableDeveloperMode true; NavigateDeveloper])
  else (developerOptionCount + 1, []).

(** [n] presses in a row, from the counter value [developerOptionCount]. *)
Fixpoint pressDeveloperCounter (n : nat) (developerOptionCount : Z)
    : Z * list DeveloperEffect :=
  match n with
  | O => (developerOptionCount, [])
  | S n' =>
      let (count, fired) := incrementDeveloperMenuCounter developerOptionCount in
      let (count', fired') := pressDeveloperCounter n' count in
      (count', fired ++ fired')
  end.

(** The [BIOMETRY_ERROR] listener of lines 166-174:
    [setBiometricsErr((prev) => value ?? !prev)]. *)
Definition onBiometryError (value : option bool) (prev : bool) : bool :=
  default (negb prev) value.

(** [biometricsErr] after a sequence of events, from [useState(false)]. *)
Definition biometricsErrAfter (values : list (option bool)) : bool :=
  fold_left (fun prev value => onBiometryError value prev) values false.

(** The effect of lines 244-268, run after interactions.  Its effects are
    those of [loadWalletCredentials] and three of its own; the [catch]
    logs. *)
Inductive BiometricsEffect : Type :=
| SetBiometricsEnrollmentChange (changed : bool)
| DispatchUseBiometry (payload : bool)
| Credentials (e : Effect)
| LoggerError.

Definition checkBiometrics (useBiometry : bool)
    (isBiometricsActive : Completion bool) (disableBiometrics : Completion unit)
    (usage : PINEntryUsage) (store : State)
    (getWalletSecret : Completion (option WalletSecret)) : list BiometricsEffect :=
  if negb useBiometry then []
  else
    let load :=
      let (es, c) := loadWalletCredentials usage store getWalletSecret in
      map Credentials es ++ match c with Returned _ => [] | Threw _ => [LoggerError] end in
    match isBiometricsActive with
    | Threw _ => [LoggerError]
    | Returned active =>
        if negb active then
          SetBiometricsEnrollmentChange true ::
          match disableBiometrics with
          | Threw _ => [LoggerError]
          | Returned _ => DispatchUseBiometry false :: load
          end
        else load
    end.

(** ** The rest of [RootStack] *)

(** The custom metadata of a proof record: the flag the cleanup reads, and
    the other keys, which the object spread copies. *)
Record ProofCustomMetadata : Type := {
  delete_conn_after_seen : option bool;
  other_keys : list (string * string);
}.

Record ProofExchangeRecord : Type := {
  connectionId : option string;
  customMetadata : option ProofCustomMetadata;
}.

(** [meta?.delete_conn_after_seen] as a condition. *)
Definition flagged (proof : ProofExchangeRecord) : bool :=
  match customMetadata proof with
  | Some meta =>
      match delete_conn_after_seen meta with
      | Some true => true
      | _ => false
      end
  | None => false
  end.

(** One iteration of the [forEach] of lines 669-675: the connection ids
    handed to [deleteById] (none when there is no agent) and the record after
    [metadata.set]. *)
Definition cleanDeclinedProof (agent : bool) (proof : ProofExchangeRecord)
    : list string * ProofExchangeRecord :=
  match customMetadata proof with
  | Some meta =>
      match delete_conn_after_seen meta with
      | Some true =>
          (if agent then [default ""%string (connectionId proof)] else [],
           {| connectionId := connectionId proof;
              customMetadata :=
                Some {| delete_conn_after_seen := Some false;
                        other_keys := other_keys meta |} |})
      | _ => ([], proof)
      end
  | None => ([], proof)
  end.

(** The effect of lines 668-676 over the declined and abandoned proofs. *)
Fixpoint cleanDeclinedProofs (agent : bool) (declinedProofs : list ProofExchangeRecord)
    : list string * list ProofExchangeRecord :=
  match declinedProofs with
  | [] => ([], [])
  | proof :: rest =>
      let (deleted, proof') := cleanDeclinedProof agent proof in
      let (deleted', rest') := cleanDeclinedProofs agent rest in
      (deleted ++ deleted', proof' :: rest')
  end.

(** ** Vocabulary of the further properties *)

Definition uses_modal (e : Effect) : bool :=
  match e with
  | SetAlertModalVisible _ | SetAlertModalMessage _ => true
  | _ => false
  end.

Definition uses_inline (e : Effect) : bool :=
  match e with
  | SetInlineMessageField _ => true
  | _ => false
  end.

Definition is_completion (ev : GateEvent) : bool :=
  match ev with
  | DID_COMPLETE_ONBOARDING => true
  | StoreChanged _ => false
  end.

(** The store snapshot after a sequence of gate events. *)
Definition latestStore (store : State) (evs : list GateEvent) : State :=
  fold_left (fun s ev => match ev with StoreChanged s' => s' | _ => s end) evs store.

(** Further configurations: every multiple of the increment is penalised;
    a zero increment. *)
Definition coveringConfig : AttemptLockoutConfig :=
  {| baseRules := {[ 5 := 60000 ]};
     thresholdRules :=
       {| threshold := 5; increment := 5; thresholdPenaltyDuration := 3600000 |} |}.

Definition zeroIncrementConfig : AttemptLockoutConfig :=
  {| baseRules := ∅;
     thresholdRules :=
       {| threshold := 3; increment := 0; thresholdPenaltyDuration := 60000 |} |}.

(** * Properties *)

(** ** The penalty computation *)

Lemma rem_zero_iff_mod_zero (a b : Z) :
  b <> 0 -> (Z.rem a b =? 0) = (a mod b =? 0).
Proof.
  intros Hb.
  destruct (Z.eqb_spec (Z.rem a b) 0) as [Hr | Hr];
    destruct (Z.eqb_spec (a mod b) 0) as [Hm | Hm]; try reflexivity; exfalso.
  - apply Hm. apply Z.rem_divide in Hr; [ | exact Hb ].
    apply Z.mod_divide; assumption.
  - apply Hr. apply Z.mod_divide in Hm; [ | exact Hb ].
    apply Z.rem_divide; assumption.
Qed.

Lemma js_not_rem (a b : Z) :
  b <> 0 -> js_not (js_rem (Num a) (Num b)) = (a mod b =? 0).
Proof.
  intros Hb. unfold js_rem, js_not.
  destruct (Z.eqb_spec b 0) as [-> | _]; [ contradiction | ].
  apply rem_zero_iff_mod_zero, Hb.
Qed.

Example getLockoutPenalty_scenario_3 :
  getLockoutPenalty scenarioConfig 3 = Some 30000.
Proof. reflexivity. Qed.

Example getLockoutPenalty_scenario_2 :
  getLockoutPenalty scenarioConfig 2 = None.
Proof. reflexivity. Qed.

Example getLockoutPenalty_scenario_6 :
  getLockoutPenalty scenarioConfig 6 = Some 60000.
Proof. reflexivity. Qed.

(** With a zero increment [attempts % increment] is [NaN], which [!] turns
    into [true]: every count from the threshold on is penalised. *)
Lemma getLockoutPenalty_zero_increment (cfg : AttemptLockoutConfig) (attempts : Z) :
  increment (thresholdRules cfg) = 0 ->
  baseRules cfg !! attempts = None ->
  threshold (thresholdRules cfg) <= attempts ->
  getLockoutPenalty cfg attempts = Some (thresholdPenaltyDuration (thresholdRules cfg)).
Proof.
  intros Hinc Hbase Hthr. unfold getLockoutPenalty.
  rewrite Hbase, Hinc. simpl.
  destruct (Z.leb_spec (threshold (thresholdRules cfg)) attempts); [ reflexivity | lia ].
Qed.

(** C3, as stated, fails: a base rule of duration [0] does not take
    precedence.  With [baseRules = {10: 0}], threshold 5, increment 5 and a
    threshold penalty of 3600000, [getLockoutPenalty 10] is the threshold
    penalty while the reference definition returns the base rule's [0]. *)
Lemma getLockoutPenalty_zero_rule_differs :
  getLockoutPenalty zeroRuleConfig 10 = Some 3600000 /\
  computeLockoutPenalty_spec zeroRuleConfig 10 = Some 0 /\
  getLockoutPenalty zeroRuleConfig 10 <> computeLockoutPenalty_spec zeroRuleConfig 10.
Proof.
  split; [ reflexivity | split; [ reflexivity | ] ].
  vm_compute. discriminate.
Qed.

(** C3 (amended): for a non-zero [increment], [getLockoutPenalty] equals the
    reference definition at every attempt count whose base rule is absent or
    has a non-zero duration; a base rule of duration [0] is treated like an
    absent one by the threshold test, so there the threshold penalty is
    returned when [attempts >= threshold] and [attempts mod increment = 0],
    and the rule's [0] otherwise. *)
Theorem getLockoutPenalty_refines_spec (cfg : AttemptLockoutConfig) (attempts : Z) :
  increment (thresholdRules cfg) <> 0 ->
  (baseRules cfg !! attempts <> Some 0 ->
   getLockoutPenalty cfg attempts = computeLockoutPenalty_spec cfg attempts) /\
  (baseRules cfg !! attempts = Some 0 ->
   getLockoutPenalty cfg attempts =
     if (threshold (thresholdRules cfg) <=? attempts)
        && (attempts mod increment (thresholdRules cfg) =? 0)
     then Some (thresholdPenaltyDuration (thresholdRules cfg))
     else Some 0).
Proof.
  intros Hinc. unfold getLockoutPenalty, computeLockoutPenalty_spec.
  rewrite (js_not_rem _ _ Hinc).
  split.
  - intros Hnz. destruct (baseRules cfg !! attempts) as [d | ] eqn:Hbase.
    + simpl. destruct (Z.eqb_spec d 0) as [-> | _]; [ congruence | reflexivity ].
    + reflexivity.
  - intros ->. reflexivity.
Qed.

Lemma getLockoutPenalty_refines_spec_witness :
  increment (thresholdRules scenarioConfig) <> 0 /\
  baseRules scenarioConfig !! 3 <> Some 0 /\
  getLockoutPenalty scenarioConfig 3 = computeLockoutPenalty_spec scenarioConfig 3.
Proof.
  assert (Hinc : increment (thresholdRules scenarioConfig) <> 0)
    by (vm_compute; discriminate).
  assert (Hnz : baseRules scenarioConfig !! 3 <> Some 0)
    by (vm_compute; discriminate).
  split; [ exact Hinc | split; [ exact Hnz | ] ].
  exact (proj1 (getLockoutPenalty_refines_spec scenarioConfig 3 Hinc) Hnz).
Defined.

(** C9: with [increment = 1] the [attemptsLeft] computation yields the
    number [0] (never [NaN], and nothing is raised) for every attempt count,
    in particular for every non-negative one. *)
Theorem attemptsLeft_increment_one (cfg : AttemptLockoutConfig) (newAttempt : Z) :
  increment (thresholdRules cfg) = 1 ->
  attemptsLeft cfg newAttempt = Num 0.
Proof.
  intros Hinc. unfold attemptsLeft. rewrite Hinc.
  unfold js_rem at 2. change (1 =? 0) with false. cbv iota.
  rewrite Z.rem_1_r. reflexivity.
Qed.

Lemma attemptsLeft_increment_one_witness :
  increment (thresholdRules incrementOneConfig) = 1 /\
  attemptsLeft incrementOneConfig 7 = Num 0.
Proof.
  split; [ reflexivity | ].
  apply (attemptsLeft_increment_one incrementOneConfig 7). reflexivity.
Defined.

(** For a positive increment and a non-negative count, [attemptsLeft] is the
    number [(increment - (newAttempt mod increment)) mod increment]. *)
Lemma attemptsLeft_well_formed (cfg : AttemptLockoutConfig) (newAttempt : Z) :
  0 < increment (thresholdRules cfg) ->
  0 <= newAttempt ->
  attemptsLeft cfg newAttempt =
    Num ((increment (thresholdRules cfg) - newAttempt mod increment (thresholdRules cfg))
         mod increment (thresholdRules cfg)).
Proof.
  intros Hinc Hn. unfold attemptsLeft, js_rem, js_sub.
  destruct (Z.eqb_spec (increment (thresholdRules cfg)) 0) as [E | _]; [ lia | ].
  rewrite (Z.rem_mod_nonneg newAttempt) by lia.
  pose proof (Z.mod_pos_bound newAttempt (increment (thresholdRules cfg)) Hinc).
  rewrite Z.rem_mod_nonneg by lia. reflexivity.
Qed.

(** ** A failed attempt *)

Section FailedAttempt.

Variable cfg : AttemptLockoutConfig.
Variable inlineMessagesEnabled : bool.
Variable store : State.
Variable now : Z.

Let newAttempt : Z := loginAttempts (loginAttempt store) + 1.
Let left : number := attemptsLeft cfg newAttempt.
Let r : Run unit := recordFailedAttempt cfg inlineMessagesEnabled store now.

(** More than one try left: the count of tries is shown, the button is
    enabled again and the new count is stored. *)
Lemma recordFailedAttempt_tries_remaining :
  js_gt left 1 = true ->
  warnings (effects r) = [IncorrectPINTries left] /\
  In (SetContinueEnabled true) (effects r) /\
  dispatched (effects r) =
    [ATTEMPT_UPDATED {| payload_loginAttempts := Some newAttempt;
                        payload_lockoutDate := None;
                        payload_servedPenalty := None |}] /\
  loginAttempt (settle store r) =
    {| loginAttempts := newAttempt;
       lockoutDate := lockoutDate (loginAttempt store);
       servedPenalty := servedPenalty (loginAttempt store) |}.
Proof.
  subst r left newAttempt. intros Hgt. unfold recordFailedAttempt, settle.
  rewrite Hgt.
  destruct inlineMessagesEnabled,
    (js_not_opt (getLockoutPenalty cfg (loginAttempts (loginAttempt store) + 1)));
    cbn; intuition.
Qed.

(** Exactly one try left: the last-try text is shown, the button is
    enabled again and the new count is stored. *)
Lemma recordFailedAttempt_last_try :
  js_strict_eq left 1 = true ->
  warnings (effects r) = [LastTryBeforeTimeout] /\
  In (SetContinueEnabled true) (effects r) /\
  dispatched (effects r) =
    [ATTEMPT_UPDATED {| payload_loginAttempts := Some newAttempt;
                        payload_lockoutDate := None;
                        payload_servedPenalty := None |}] /\
  loginAttempt (settle store r) =
    {| loginAttempts := newAttempt;
       lockoutDate := lockoutDate (loginAttempt store);
       servedPenalty := servedPenalty (loginAttempt store) |}.
Proof.
  subst r left newAttempt. intros Heq. unfold recordFailedAttempt, settle.
  rewrite Heq.
  assert (Hgt : js_gt (attemptsLeft cfg (loginAttempts (loginAttempt store) + 1)) 1 = false).
  { destruct (attemptsLeft cfg (loginAttempts (loginAttempt store) + 1)) as [z | ];
      simpl in *; [ | reflexivity ].
    apply Z.eqb_eq in Heq. subst z. reflexivity. }
  rewrite Hgt.
  destruct inlineMessagesEnabled,
    (js_not_opt (getLockoutPenalty cfg (loginAttempts (loginAttempt store) + 1)));
    cbn; intuition.
Qed.

(** No try left and a penalty for the new count: the lockout is stored
    with the new count and no text is shown. *)
Lemma recordFailedAttempt_lockout (penalty : Z) :
  js_gt left 1 = false ->
  js_strict_eq left 1 = false ->
  getLockoutPenalty cfg newAttempt = Some penalty ->
  warnings (effects r) = [] /\
  loginAttempt (settle store r) =
    {| loginAttempts := newAttempt;
       lockoutDate := Some (now + penalty);
       servedPenalty := Some false |}.
Proof.
  subst r left newAttempt. intros Hgt Heq Hpen. unfold recordFailedAttempt, settle.
  rewrite Hgt, Heq, Hpen.
  destruct inlineMessagesEnabled, (js_not_opt (Some penalty)); cbn; intuition.
Qed.

(** No try left and no penalty for the new count: the branch returns
    without a dispatch. *)
Lemma recordFailedAttempt_no_penalty :
  js_gt left 1 = false ->
  js_strict_eq left 1 = false ->
  getLockoutPenalty cfg newAttempt = None ->
  r = (if inlineMessagesEnabled then [] else [SetAlertModalVisible true], Returned tt) /\
  settle store r = store.
Proof.
  subst r left newAttempt. intros Hgt Heq Hpen. unfold recordFailedAttempt, settle.
  rewrite Hgt, Heq, Hpen.
  destruct store as [[a d p] [n] [s] [b]], inlineMessagesEnabled; cbn; intuition.
Qed.

End FailedAttempt.

(** C1 at the specification's first scenario ([baseRules = {3: 30000}],
    threshold 5, increment 2, [loginAttempts = 2]): the penalty for the new
    count 3 is present, yet a failed attempt takes the one-try-left branch
    ([attemptsLeft] is 1): the last-try text is set, the count 3 is stored
    and no lockout is: [lockoutDate] stays absent instead of becoming
    [now + 30000]. *)
Theorem unlockWalletWithPIN_scenario1_no_lockout
    (inlineMessagesEnabled : bool) (now : Z) (PIN : string) :
  let store := storeWith 2 None None in
  let r := unlockWalletWithPIN scenarioConfig inlineMessagesEnabled store now
             (fun _ => Returned false) PIN in
  getLockoutPenalty scenarioConfig 3 = Some 30000 /\
  attemptsLeft scenarioConfig 3 = Num 1 /\
  warnings (effects r) = [LastTryBeforeTimeout] /\
  loginAttempt (settle store r) =
    {| loginAttempts := 3; lockoutDate := None; servedPenalty := None |} /\
  lockoutDate (loginAttempt (settle store r)) <> Some (now + 30000).
Proof.
  destruct inlineMessagesEnabled; cbn;
    (split; [ reflexivity | split; [ reflexivity | split; [ reflexivity | ] ] ]);
    (split; [ reflexivity | discriminate ]).
Qed.

(** C2 at the specification's second scenario (same configuration,
    [loginAttempts = 1]): the new count 2 leaves no try and has no penalty;
    the callback returns without any dispatch, so the stored count is still
    1 and not 2. *)
Theorem unlockWalletWithPIN_scenario2_count_not_stored
    (inlineMessagesEnabled : bool) (now : Z) (PIN : string) :
  let store := storeWith 1 None None in
  let r := unlockWalletWithPIN scenarioConfig inlineMessagesEnabled store now
             (fun _ => Returned false) PIN in
  attemptsLeft scenarioConfig 2 = Num 0 /\
  getLockoutPenalty scenarioConfig 2 = None /\
  dispatched (effects r) = [] /\
  loginAttempts (loginAttempt (settle store r)) = 1.
Proof.
  destruct inlineMessagesEnabled; cbn; repeat split; reflexivity.
Qed.

(** C4 in the branch with no try left and no penalty (scenario
    configuration, [loginAttempts = 3], new count 4): no text is set, but
    the attempt is not recorded either: nothing is dispatched, the store is
    unchanged and the continue button is not enabled again. *)
Theorem recordFailedAttempt_no_try_left_not_recorded
    (inlineMessagesEnabled : bool) (now : Z) :
  let store := storeWith 3 None None in
  let r := recordFailedAttempt scenarioConfig inlineMessagesEnabled store now in
  attemptsLeft scenarioConfig 4 = Num 0 /\
  getLockoutPenalty scenarioConfig 4 = None /\
  warnings (effects r) = [] /\
  effects r = (if inlineMessagesEnabled then [] else [SetAlertModalVisible true]) /\
  settle store r = store.
Proof.
  destruct inlineMessagesEnabled; cbn; repeat split; reflexivity.
Qed.

(** ** A successful attempt *)

(** C5: for every store, the successful continuation dispatches
    [{loginAttempts: 0}] and [{displayNotification: false}] and nothing else;
    once reduced, [loginAttempts] is 0, the lockout notification is cleared,
    and [lockoutDate] and [servedPenalty] are what they were.  The count and
    the notification are reset as well by the whole callback, whatever
    [servedPenalty] was. *)
Theorem recordSuccessfulAttempt_resets_attempts (store : State) :
  let r := recordSuccessfulAttempt store in
  dispatched (effects r) =
    [ATTEMPT_UPDATED {| payload_loginAttempts := Some 0;
                        payload_lockoutDate := None;
                        payload_servedPenalty := None |};
     LOCKOUT_UPDATED false] /\
  loginAttempts (loginAttempt (settle store r)) = 0 /\
  displayNotification (lockout (settle store r)) = false /\
  lockoutDate (loginAttempt (settle store r)) = lockoutDate (loginAttempt store) /\
  servedPenalty (loginAttempt (settle store r)) = servedPenalty (loginAttempt store) /\
  forall cfg inlineMessagesEnabled now PIN,
    let u := unlockWalletWithPIN cfg inlineMessagesEnabled store now
               (fun _ => Returned true) PIN in
    loginAttempts (loginAttempt (settle store u)) = 0 /\
    displayNotification (lockout (settle store u)) = false.
Proof.
  destruct store as [[a d p] [n] [[ | screen rest]] [b]].
  - cbn. repeat split; try reflexivity;
      destruct p as [[ | ] | ]; reflexivity.
  - unfold recordSuccessfulAttempt, unlockWalletWithPIN, recordSuccessfulAttempt,
      gotoPostAuthScreens, settle. cbn.
    destruct (String.eqb screen ""); cbn; repeat split; try reflexivity;
      destruct p as [[ | ] | ]; reflexivity.
Qed.

(** C10: in [WalletUnlock] usage, when [getWalletSecret] yields a secret,
    [loadWalletCredentials] first clears the lockout notification, then
    resets [loginAttempts] to 0, and only then reports authenticated (and
    goes to the post-authentication screens); in [PINCheck] and
    [ChangeBiometrics] usage it does nothing at all. *)
Theorem loadWalletCredentials_resets_before_authenticated
    (store : State) (secret : WalletSecret)
    (getWalletSecret : Completion (option WalletSecret)) :
  let r := loadWalletCredentials WalletUnlock store (Returned (Some secret)) in
  r = ([Dispatch (LOCKOUT_UPDATED false);
        Dispatch (ATTEMPT_UPDATED {| payload_loginAttempts := Some 0;
                                     payload_lockoutDate := None;
                                     payload_servedPenalty := None |});
        SetAuthenticated true] ++ effects (gotoPostAuthScreens store),
       Returned tt) /\
  loginAttempts (loginAttempt (settle store r)) = 0 /\
  displayNotification (lockout (settle store r)) = false /\
  loadWalletCredentials PINCheck store getWalletSecret = ([], Returned tt) /\
  loadWalletCredentials ChangeBiometrics store getWalletSecret = ([], Returned tt).
Proof.
  destruct store as [[a d p] [n] [[ | screen rest]] [b]].
  - cbn. repeat split; reflexivity.
  - unfold loadWalletCredentials, gotoPostAuthScreens, settle. cbn.
    destruct (String.eqb screen ""); cbn; repeat split; reflexivity.
Qed.

(** ** Exceptions of the verification step *)

(** Every run of the two verification callbacks, and of the handler that
    calls them, ends normally: no exception leaves them. *)
Lemma completion_try_catch {A : Type} (body : Run A) (handler : string -> Run A) (a : A) :
  (forall err, completion (handler err) = Returned a) ->
  (forall x, completion body = Returned x -> x = a) ->
  completion (try_catch body handler) = Returned a.
Proof.
  intros Hh Hb. destruct body as [done [x | err]]; simpl.
  - f_equal. apply Hb. reflexivity.
  - specialize (Hh err). destruct (handler err). exact Hh.
Qed.

Lemma unlockWalletWithPIN_returns cfg inlineMessagesEnabled store now checkWalletPIN PIN :
  completion (unlockWalletWithPIN cfg inlineMessagesEnabled store now checkWalletPIN PIN)
  = Returned tt.
Proof.
  unfold unlockWalletWithPIN. apply completion_try_catch.
  - reflexivity.
  - intros []. reflexivity.
Qed.

Lemma verifyPIN_returns getWalletSecret hashPIN PIN :
  completion (verifyPIN getWalletSecret hashPIN PIN) = Returned tt.
Proof.
  unfold verifyPIN. apply completion_try_catch.
  - reflexivity.
  - intros []. reflexivity.
Qed.

Lemma completion_bind {A B : Type} (m : Run A) (k : A -> Run B) (a : A) :
  completion m = Returned a -> completion (bind m k) = completion (k a).
Proof.
  destruct m as [done c]. simpl. intros ->. simpl.
  destruct (k a). reflexivity.
Qed.

Lemma onPINInputCompleted_returns usage cfg inlineMessagesEnabled minPINLength store now
    checkWalletPIN getWalletSecret hashPIN PIN :
  completion (onPINInputCompleted usage cfg inlineMessagesEnabled minPINLength store now
                checkWalletPIN getWalletSecret hashPIN PIN) = Returned tt.
Proof.
  unfold onPINInputCompleted.
  destruct (inlineMessagesEnabled && _); [ reflexivity | ].
  rewrite (completion_bind _ _ tt) by reflexivity.
  destruct usage.
  - rewrite (completion_bind _ _ tt) by apply verifyPIN_returns. reflexivity.
  - rewrite (completion_bind _ _ tt) by reflexivity. apply unlockWalletWithPIN_returns.
  - rewrite (completion_bind _ _ tt) by apply verifyPIN_returns. reflexivity.
Qed.

(** [verifyPIN] never dispatches. *)
Lemma verifyPIN_dispatches_nothing getWalletSecret hashPIN PIN :
  dispatched (effects (verifyPIN getWalletSecret hashPIN PIN)) = [].
Proof.
  unfold verifyPIN.
  destruct getWalletSecret as [[secret | ] | err]; try reflexivity.
  simpl. destruct (hashPIN PIN (salt secret)) as [hashed | err]; try reflexivity.
  simpl. destruct (negb (String.eqb (key secret) hashed)); reflexivity.
Qed.

(** C8: when the verification step throws, the callback catches it: the run
    ends normally, its only effects are (for [unlockWalletWithPIN]) the
    disabling of the continue button and one [ERROR_ADDED] event, with code
    1041 for [unlockWalletWithPIN] and 1042 for [verifyPIN], carrying the
    thrown message; nothing is dispatched, so the store, and with it the
    login-attempt state, is unchanged. *)
Theorem verification_exception_is_caught
    (cfg : AttemptLockoutConfig) (inlineMessagesEnabled : bool) (store : State) (now : Z)
    (checkWalletPIN : string -> Completion bool)
    (getWalletSecret : Completion (option WalletSecret))
    (hashPIN : string -> string -> Completion string) (PIN err : string) :
  (checkWalletPIN PIN = Threw err ->
   let r := unlockWalletWithPIN cfg inlineMessagesEnabled store now checkWalletPIN PIN in
   r = ([SetContinueEnabled false;
         EmitErrorAdded {| title := "Error.Title1041"; description := "Error.Message1041";
                           message := err; code := 1041 |}],
        Returned tt) /\
   dispatched (effects r) = [] /\
   settle store r = store) /\
  (verifyPIN_throws getWalletSecret hashPIN PIN err ->
   let r := verifyPIN getWalletSecret hashPIN PIN in
   r = ([EmitErrorAdded {| title := "Error.Title1042"; description := "Error.Message1042";
                           message := err; code := 1042 |}],
        Returned tt) /\
   dispatched (effects r) = [] /\
   settle store r = store).
Proof.
  split.
  - intros Hthrow. unfold unlockWalletWithPIN, settle. rewrite Hthrow.
    repeat split; reflexivity.
  - intros [Hsecret | [[Hsecret ->] | [secret [Hsecret Hhash]]]];
      unfold verifyPIN, settle; rewrite Hsecret; simpl.
    + repeat split; reflexivity.
    + repeat split; reflexivity.
    + rewrite Hhash. repeat split; reflexivity.
Qed.

Lemma verification_exception_is_caught_witness :
  let store := storeWith 2 None None in
  let err := "Wallet secret not found"%string in
  let unlock := unlockWalletWithPIN scenarioConfig false store 1000
                  (fun _ => Threw err) "123456" in
  let verify := verifyPIN (Returned None) (fun _ _ => Returned ""%string) "123456" in
  (errors (effects unlock) =
     [{| title := "Error.Title1041"; description := "Error.Message1041";
         message := err; code := 1041 |}] /\
   completion unlock = Returned tt /\ settle store unlock = store) /\
  (errors (effects verify) =
     [{| title := "Error.Title1042"; description := "Error.Message1042";
         message := err; code := 1042 |}] /\
   completion verify = Returned tt /\ settle store verify = store).
Proof.
  destruct (verification_exception_is_caught scenarioConfig false (storeWith 2 None None)
              1000 (fun _ => Threw "Wallet secret not found"%string) (Returned None)
              (fun _ _ => Returned ""%string) "123456" "Wallet secret not found")
    as [Hunlock Hverify].
  split.
  - destruct (Hunlock eq_refl) as [Hrun [_ Hstore]].
    cbv zeta in Hrun, Hstore |- *. rewrite Hrun at 1 2.
    split; [ reflexivity | split; [ reflexivity | exact Hstore ] ].
  - destruct (Hverify (or_intror (or_introl (conj eq_refl eq_refl)))) as [Hrun [_ Hstore]].
    cbv zeta in Hrun, Hstore |- *. rewrite Hrun at 1 2.
    split; [ reflexivity | split; [ reflexivity | exact Hstore ] ].
Defined.

(** ** The authentication gate *)

(** A sound memo cell makes [useMemo] return the conjunction of the current
    dependencies, whether the cell is reused or recomputed. *)
Lemma shouldRenderMainStack_sound (st : RootStackState) (store : State) :
  memo_ok (shouldRenderMainStack_memo st) ->
  let cell := shouldRenderMainStack st store in
  cell_ok cell /\
  memo_value cell = onboardingComplete st && didAuthenticate (authentication store).
Proof.
  unfold shouldRenderMainStack, useMemo, memo_ok, cell_ok.
  destruct (shouldRenderMainStack_memo st) as [c | ]; intros Hok; simpl.
  - destruct (decide (memo_deps c =
                      (onboardingComplete st, didAuthenticate (authentication store))))
      as [Hdeps | _]; simpl.
    + split; [ exact Hok | ]. rewrite Hok, Hdeps. reflexivity.
    + split; reflexivity.
  - split; reflexivity.
Qed.

Lemma mount_ok (store : State) : session_ok (mount store).
Proof.
  unfold session_ok, mount, RootStack.
  destruct (shouldRenderMainStack_sound RootStack_mounted store I) as [Hcell Hval].
  cbn -[shouldRenderMainStack]. split; [ exact Hcell | ]. rewrite Hval. reflexivity.
Qed.

Lemma step_ok (s : Session) (ev : GateEvent) : session_ok s -> session_ok (step s ev).
Proof.
  intros [Hmemo _]. unfold session_ok. destruct ev as [ | store' ]; unfold step, RootStack.
  - set (st := {| onboardingComplete := true;
                  shouldRenderMainStack_memo := shouldRenderMainStack_memo (hooks s) |}).
    destruct (shouldRenderMainStack_sound st (snapshot s) Hmemo) as [Hcell Hval].
    cbn -[shouldRenderMainStack]. split; [ exact Hcell | ]. rewrite Hval. reflexivity.
  - destruct (shouldRenderMainStack_sound (hooks s) store' Hmemo) as [Hcell Hval].
    cbn -[shouldRenderMainStack]. split; [ exact Hcell | ]. rewrite Hval. reflexivity.
Qed.

Lemma steps_ok (evs : list GateEvent) (s : Session) :
  session_ok s -> session_ok (fold_left step evs s).
Proof.
  revert s. induction evs as [ | ev evs IH ]; intros s Hs; simpl.
  - exact Hs.
  - apply IH, step_ok, Hs.
Qed.

(** The only change a step makes to [onboardingComplete] is the listener's
    [setOnboardingComplete(true)]. *)
Lemma step_onboardingComplete (s : Session) (ev : GateEvent) :
  onboardingComplete (hooks (step s ev)) =
    match ev with
    | DID_COMPLETE_ONBOARDING => true
    | StoreChanged _ => onboardingComplete (hooks s)
    end.
Proof. destruct ev; reflexivity. Qed.

Lemma steps_keep_onboardingComplete (evs : list GateEvent) (s : Session) :
  onboardingComplete (hooks s) = true ->
  onboardingComplete (hooks (fold_left step evs s)) = true.
Proof.
  revert s. induction evs as [ | ev evs IH ]; intros s Hs; simpl.
  - exact Hs.
  - apply IH. rewrite step_onboardingComplete. destruct ev; [ reflexivity | exact Hs ].
Qed.

Lemma steps_onboardingComplete (evs : list GateEvent) (s : Session) :
  onboardingComplete (hooks (fold_left step evs s)) =
  onboardingComplete (hooks s) || existsb is_completion evs.
Proof.
  revert s. induction evs as [ | ev evs IH ]; intros s.
  - simpl. rewrite orb_false_r. reflexivity.
  - cbn [fold_left existsb]. rewrite IH, step_onboardingComplete.
    destruct ev; simpl; [ rewrite orb_true_r | ]; reflexivity.
Qed.

Lemma step_snapshot (s : Session) (ev : GateEvent) :
  snapshot (step s ev) = match ev with StoreChanged s' => s' | _ => snapshot s end.
Proof. destruct ev; reflexivity. Qed.

Lemma steps_snapshot (evs : list GateEvent) (s : Session) :
  snapshot (fold_left step evs s) = latestStore (snapshot s) evs.
Proof.
  revert s. unfold latestStore. induction evs as [ | ev evs IH ]; intros s.
  - reflexivity.
  - cbn [fold_left]. rewrite IH, step_snapshot. reflexivity.
Qed.

(** C6: the stack [RootStack] has rendered after any sequence of
    onboarding-completion events and store changes is decided by the two
    signals as the events left them: [onboardingComplete] is true exactly
    when a completion event has occurred, the store read is the latest
    snapshot delivered, and [MainStack] is rendered exactly when both that
    flag and that snapshot's [didAuthenticate] are true.  The memoised value
    is never stale: a further store change is rendered from the new
    snapshot, and a further completion event from the flag now true.  With
    [didAuthenticate = true] the onboarding stack is rendered at mount and
    [MainStack] after the completion event; when [didAuthenticate] is then
    reset the onboarding stack is back, and when it is set again
    [MainStack] is. *)
Theorem RootStack_renders_conjunction (store : State) (evs : list GateEvent) :
  let s := run store evs in
  onboardingComplete (hooks s) = existsb is_completion evs /\
  snapshot s = latestStore store evs /\
  rendered s =
    (if onboardingComplete (hooks s) && didAuthenticate (authentication (snapshot s))
     then MainStack else OnboardingStack) /\
  (rendered s = MainStack <->
   existsb is_completion evs = true /\
   didAuthenticate (authentication (latestStore store evs)) = true) /\
  (forall store',
     rendered (run store (evs ++ [StoreChanged store'])) =
       if existsb is_completion evs && didAuthenticate (authentication store')
       then MainStack else OnboardingStack) /\
  rendered (run store (evs ++ [DID_COMPLETE_ONBOARDING])) =
    (if didAuthenticate (authentication (latestStore store evs))
     then MainStack else OnboardingStack) /\
  rendered (run authenticatedStore []) = OnboardingStack /\
  rendered (run authenticatedStore [DID_COMPLETE_ONBOARDING]) = MainStack /\
  rendered (run authenticatedStore
              [DID_COMPLETE_ONBOARDING; StoreChanged (storeWith 0 None None)])
    = OnboardingStack /\
  rendered (run authenticatedStore
              [DID_COMPLETE_ONBOARDING; StoreChanged (storeWith 0 None None);
               StoreChanged authenticatedStore])
    = MainStack.
Proof.
  assert (Hflag : forall evs',
            onboardingComplete (hooks (run store evs')) = existsb is_completion evs').
  { intros evs'. unfold run. rewrite steps_onboardingComplete. reflexivity. }
  assert (Hstore : forall evs', snapshot (run store evs') = latestStore store evs').
  { intros evs'. unfold run. rewrite steps_snapshot. reflexivity. }
  assert (Hrendered : forall evs',
            rendered (run store evs') =
              if existsb is_completion evs'
                 && didAuthenticate (authentication (latestStore store evs'))
              then MainStack else OnboardingStack).
  { intros evs'.
    destruct (steps_ok evs' (mount store) (mount_ok store)) as [_ Hr].
    fold (run store evs') in Hr. rewrite Hr, Hflag, Hstore. reflexivity. }
  cbv zeta. split; [ apply Hflag | ]. split; [ apply Hstore | ].
  split; [ rewrite Hflag, Hstore; apply Hrendered | ].
  split.
  { rewrite Hrendered.
    destruct (existsb is_completion evs),
      (didAuthenticate (authentication (latestStore store evs))); simpl;
      split; try tauto; try discriminate; intros [? ?]; discriminate. }
  split.
  { intros store'. rewrite Hrendered, existsb_app. unfold latestStore.
    rewrite fold_left_app. simpl. rewrite orb_false_r. reflexivity. }
  split.
  { rewrite Hrendered, existsb_app. unfold latestStore.
    rewrite fold_left_app. simpl. rewrite orb_true_r. reflexivity. }
  repeat split; reflexivity.
Qed.

(** C7: [onboardingComplete] is false at mount; a step changes it only on
    the completion event, and then from false to true; and once it is true
    after some events it is true after any further ones. *)
Theorem onboardingComplete_never_reverts
    (store : State) (evs more : list GateEvent) :
  onboardingComplete (hooks (mount store)) = false /\
  (forall s ev,
     onboardingComplete (hooks (step s ev)) <> onboardingComplete (hooks s) ->
     ev = DID_COMPLETE_ONBOARDING /\
     onboardingComplete (hooks s) = false /\
     onboardingComplete (hooks (step s ev)) = true) /\
  (onboardingComplete (hooks (run store evs)) = true ->
   onboardingComplete (hooks (run store (evs ++ more))) = true).
Proof.
  split; [ reflexivity | split ].
  - intros s ev. rewrite step_onboardingComplete.
    destruct ev as [ | store' ]; [ | congruence ].
    destruct (onboardingComplete (hooks s)); [ congruence | auto ].
  - intros Htrue. unfold run. rewrite fold_left_app.
    apply steps_keep_onboardingComplete, Htrue.
Qed.

Lemma onboardingComplete_never_reverts_witness :
  onboardingComplete (hooks (run authenticatedStore [DID_COMPLETE_ONBOARDING])) = true /\
  onboardingComplete
    (hooks (run authenticatedStore
              ([DID_COMPLETE_ONBOARDING]
               ++ [StoreChanged (storeWith 0 None None); DID_COMPLETE_ONBOARDING])))
  = true.
Proof.
  split; [ reflexivity | ].
  apply (onboardingComplete_never_reverts authenticatedStore [DID_COMPLETE_ONBOARDING]
           [StoreChanged (storeWith 0 None None); DID_COMPLETE_ONBOARDING]).
  reflexivity.
Defined.

(** * Further properties *)

(** ** The penalty computation, continued *)

(** [getLockoutPenalty] answers absent exactly when there is no base rule
    for the count and the threshold rule does not fire: the count is below
    the threshold, or the increment is non-zero and does not divide it.  (A
    zero increment divides nothing, yet [!(attempts % 0)] is true.) *)
Theorem getLockoutPenalty_absent_iff (cfg : AttemptLockoutConfig) (attempts : Z) :
  getLockoutPenalty cfg attempts = None <->
  baseRules cfg !! attempts = None /\
  (attempts < threshold (thresholdRules cfg) \/
   (increment (thresholdRules cfg) <> 0 /\
    attempts mod increment (thresholdRules cfg) <> 0)).
Proof.
  unfold getLockoutPenalty.
  destruct (baseRules cfg !! attempts) as [d | ] eqn:Hbase; cbn [js_not_opt].
  - split.
    + destruct (_ && _); discriminate.
    + intros [Hnone _]. discriminate.
  - destruct (Z.leb_spec (threshold (thresholdRules cfg)) attempts) as [Hthr | Hthr];
      cbn [andb].
    + destruct (Z.eq_dec (increment (thresholdRules cfg)) 0) as [Hinc | Hinc].
      * rewrite Hinc. cbn. split; [ discriminate | ].
        intros [_ [Hlt | [Hnz _]]]; [ lia | congruence ].
      * rewrite (js_not_rem _ _ Hinc).
        destruct (Z.eqb_spec (attempts mod increment (thresholdRules cfg)) 0) as [Hm | Hm].
        -- split; [ discriminate | ].
           intros [_ [Hlt | [_ Hnm]]]; [ lia | contradiction ].
        -- split; [ | reflexivity ]. intros _. split; [ reflexivity | right; auto ].
    + split; [ | reflexivity ]. intros _. split; [ reflexivity | left; exact Hthr ].
Qed.

(** For a positive increment and a non-negative count, [attemptsLeft] is the
    distance from the count to the next multiple of the increment: a number
    [k] with [0 <= k < increment] such that the increment divides
    [newAttempt + k]. *)
Theorem attemptsLeft_next_multiple (cfg : AttemptLockoutConfig) (newAttempt : Z) :
  0 < increment (thresholdRules cfg) ->
  0 <= newAttempt ->
  exists k, attemptsLeft cfg newAttempt = Num k /\
            0 <= k < increment (thresholdRules cfg) /\
            (newAttempt + k) mod increment (thresholdRules cfg) = 0.
Proof.
  intros Hinc Hn. rewrite attemptsLeft_well_formed by assumption.
  set (inc := increment (thresholdRules cfg)) in *.
  eexists. split; [ reflexivity | ].
  pose proof (Z.mod_pos_bound newAttempt inc Hinc) as Hr.
  split; [ apply Z.mod_pos_bound; exact Hinc | ].
  destruct (Z.eq_dec (newAttempt mod inc) 0) as [Hz | Hnz].
  - rewrite Hz, Z.sub_0_r, Z_mod_same_full, Z.add_0_r. exact Hz.
  - rewrite (Z.mod_small (inc - newAttempt mod inc)) by lia.
    rewrite (Z.div_mod newAttempt inc) at 1 by lia.
    replace (inc * (newAttempt / inc) + newAttempt mod inc + (inc - newAttempt mod inc))
      with ((newAttempt / inc + 1) * inc) by ring.
    apply Z.mod_mul. lia.
Qed.

Lemma attemptsLeft_next_multiple_witness :
  exists k, attemptsLeft scenarioConfig 3 = Num k /\
            0 <= k < increment (thresholdRules scenarioConfig) /\
            (3 + k) mod increment (thresholdRules scenarioConfig) = 0.
Proof.
  apply (attemptsLeft_next_multiple scenarioConfig 3); [ reflexivity | discriminate ].
Defined.

Lemma getLockoutPenalty_present_at_multiple (cfg : AttemptLockoutConfig) (attempts : Z) :
  increment (thresholdRules cfg) <> 0 ->
  threshold (thresholdRules cfg) <= attempts ->
  attempts mod increment (thresholdRules cfg) = 0 ->
  getLockoutPenalty cfg attempts <> None.
Proof.
  intros Hinc Hthr Hdiv. unfold getLockoutPenalty.
  rewrite (js_not_rem _ _ Hinc), Hdiv.
  destruct (Z.leb_spec (threshold (thresholdRules cfg)) attempts); [ | lia ].
  destruct (baseRules cfg !! attempts) as [d | ]; cbn; [ | discriminate ].
  destruct (d =? 0); discriminate.
Qed.

Lemma attemptsLeft_none_left_divides (cfg : AttemptLockoutConfig) (newAttempt : Z) :
  0 < increment (thresholdRules cfg) ->
  0 <= newAttempt ->
  js_gt (attemptsLeft cfg newAttempt) 1 = false ->
  js_strict_eq (attemptsLeft cfg newAttempt) 1 = false ->
  newAttempt mod increment (thresholdRules cfg) = 0.
Proof.
  intros Hinc Hn. rewrite attemptsLeft_well_formed by assumption.
  cbn [js_gt js_strict_eq]. intros Hgt Heq.
  apply Z.ltb_ge in Hgt. apply Z.eqb_neq in Heq.
  pose proof (Z.mod_pos_bound newAttempt (increment (thresholdRules cfg)) Hinc) as Hr.
  destruct (Z.eq_dec (newAttempt mod increment (thresholdRules cfg)) 0) as [Hz | Hnz];
    [ exact Hz | exfalso ].
  rewrite Z.mod_small in Hgt, Heq by lia. lia.
Qed.

(** ** A failed attempt, continued *)

Section FailedAttemptEffects.

Variable cfg : AttemptLockoutConfig.
Variable inlineMessagesEnabled : bool.
Variable store : State.
Variable now : Z.

Let newAttempt : Z := loginAttempts (loginAttempt store) + 1.
Let left : number := attemptsLeft cfg newAttempt.
Let r : Run unit := recordFailedAttempt cfg inlineMessagesEnabled store now.

Let countOnly : DispatchAction :=
  ATTEMPT_UPDATED {| payload_loginAttempts := Some newAttempt;
                     payload_lockoutDate := None;
                     payload_servedPenalty := None |}.

Let lockedOut (penalty : Z) : DispatchAction :=
  ATTEMPT_UPDATED {| payload_loginAttempts := Some newAttempt;
                     payload_lockoutDate := Some (Some (now + penalty));
                     payload_servedPenalty := Some (Some false) |}.

Let text (m : Message) : Effect :=
  if inlineMessagesEnabled then SetInlineMessageField m else SetAlertModalMessage m.

(** The effects of the branch, laid out. *)
Lemma recordFailedAttempt_effects :
  effects r =
    (if negb inlineMessagesEnabled && js_not_opt (getLockoutPenalty cfg newAttempt)
     then [SetAlertModalVisible true] else [])
    ++ (if js_gt left 1
        then [text (IncorrectPINTries left); SetContinueEnabled true; Dispatch countOnly]
        else if js_strict_eq left 1
        then [text LastTryBeforeTimeout; SetContinueEnabled true; Dispatch countOnly]
        else match getLockoutPenalty cfg newAttempt with
             | Some penalty => [Dispatch (lockedOut penalty)]
             | None => []
             end).
Proof.
  subst r text lockedOut countOnly left newAttempt.
  unfold recordFailedAttempt, warn, attemptLockout.
  destruct (getLockoutPenalty cfg (loginAttempts (loginAttempt store) + 1)) as [p | ];
    destruct (js_gt (attemptsLeft cfg (loginAttempts (loginAttempt store) + 1)) 1),
      (js_strict_eq (attemptsLeft cfg (loginAttempts (loginAttempt store) + 1)) 1),
      inlineMessagesEnabled;
    try destruct (js_not_opt (Some p)); reflexivity.
Qed.

Lemma recordFailedAttempt_dispatched :
  dispatched (effects r) =
    if js_gt left 1 || js_strict_eq left 1 then [countOnly]
    else match getLockoutPenalty cfg newAttempt with
         | Some penalty => [lockedOut penalty]
         | None => []
         end.
Proof.
  rewrite recordFailedAttempt_effects.
  subst text. destruct (negb inlineMessagesEnabled && _), (js_gt left 1),
    (js_strict_eq left 1), (getLockoutPenalty cfg newAttempt), inlineMessagesEnabled;
    reflexivity.
Qed.

(** A failed attempt dispatches at most one action; an action it dispatches
    is an [ATTEMPT_UPDATED] carrying [loginAttempts + 1]; and it dispatches
    nothing exactly when no try is left ([attemptsLeft] is neither above 1
    nor 1) and the new count has no penalty. *)
Theorem recordFailedAttempt_stores_next_count_or_nothing :
  (length (dispatched (effects r)) <= 1)%nat /\
  (forall a, In a (dispatched (effects r)) ->
     exists payload, a = ATTEMPT_UPDATED payload /\
                     payload_loginAttempts payload = Some newAttempt) /\
  (dispatched (effects r) = [] <->
   js_gt left 1 = false /\ js_strict_eq left 1 = false /\
   getLockoutPenalty cfg newAttempt = None).
Proof.
  rewrite recordFailedAttempt_dispatched.
  destruct (js_gt left 1), (js_strict_eq left 1),
    (getLockoutPenalty cfg newAttempt) as [p | ]; cbn [orb length];
    (split; [ auto with arith | split ]).
  all: try (intros a [<- | []]; eexists; split; reflexivity).
  all: try (intros a []).
  all: try (split; [ discriminate | intros (? & ? & ?); discriminate ]).
  split; auto.
Qed.

(** When the threshold is not above a positive increment, every multiple of
    the increment from the first on is penalised, so for a non-negative
    stored count every failed attempt dispatches exactly one action and it
    carries [loginAttempts + 1]. *)
Theorem recordFailedAttempt_always_counts :
  0 < increment (thresholdRules cfg) ->
  threshold (thresholdRules cfg) <= increment (thresholdRules cfg) ->
  0 <= loginAttempts (loginAttempt store) ->
  exists payload, dispatched (effects r) = [ATTEMPT_UPDATED payload] /\
                  payload_loginAttempts payload = Some newAttempt.
Proof.
  intros Hinc Hthr Hla. rewrite recordFailedAttempt_dispatched.
  destruct (js_gt left 1) eqn:Hgt; [ eexists; split; reflexivity | ].
  destruct (js_strict_eq left 1) eqn:Heq; [ eexists; split; reflexivity | ].
  cbn [orb].
  destruct (getLockoutPenalty cfg newAttempt) as [p | ] eqn:Hpen;
    [ eexists; split; reflexivity | exfalso ].
  assert (Hdiv : newAttempt mod increment (thresholdRules cfg) = 0).
  { apply attemptsLeft_none_left_divides; [ exact Hinc | subst newAttempt; lia | | ];
      assumption. }
  revert Hpen. apply getLockoutPenalty_present_at_multiple; [ lia | | exact Hdiv ].
  apply Z.mod_divide in Hdiv; [ | lia ].
  destruct Hdiv as [q Hq]. subst newAttempt.
  set (la := loginAttempts (loginAttempt store)) in *.
  set (inc := increment (thresholdRules cfg)) in *.
  set (thr := threshold (thresholdRules cfg)) in *.
  clearbody la inc thr. clear - Hq Hthr Hinc Hla.
  assert (Hqpos : 0 < q) by nia.
  nia.
Qed.

(** Whenever a failed attempt stores a lockout date, the date is [now] plus
    the penalty of the new count, the served flag is [false], the count is
    [loginAttempts + 1], no warning text is set and the continue button is
    not enabled again; and unless the penalty is 0 the lockout warning of
    that render was on and the alert modal is not opened. *)
Theorem recordFailedAttempt_lockout_payload (payload : AttemptPayload) :
  In (ATTEMPT_UPDATED payload) (dispatched (effects r)) ->
  payload_lockoutDate payload <> None ->
  exists penalty,
    getLockoutPenalty cfg newAttempt = Some penalty /\
    payload = {| payload_loginAttempts := Some newAttempt;
                 payload_lockoutDate := Some (Some (now + penalty));
                 payload_servedPenalty := Some (Some false) |} /\
    warnings (effects r) = [] /\
    ~ In (SetContinueEnabled true) (effects r) /\
    (penalty <> 0 ->
     displayLockoutWarning cfg store = true /\
     ~ In (SetAlertModalVisible true) (effects r)).
Proof.
  rewrite recordFailedAttempt_dispatched, recordFailedAttempt_effects.
  unfold displayLockoutWarning. fold newAttempt.
  destruct (js_gt left 1); [ intros [Hin | []] Hdate; inversion Hin; subst; contradiction | ].
  destruct (js_strict_eq left 1);
    [ intros [Hin | []] Hdate; inversion Hin; subst; contradiction | ].
  cbn [orb].
  destruct (getLockoutPenalty cfg newAttempt) as [p | ]; [ | intros [] ].
  intros [Hin | []] _. inversion Hin. subst payload. clear Hin.
  exists p. split; [ reflexivity | split; [ reflexivity | ] ].
  cbn [js_not_opt].
  destruct inlineMessagesEnabled, (Z.eqb_spec p 0) as [Hp | Hp]; cbn;
    (split; [ reflexivity | split; [ intuition discriminate | ] ]);
    intros Hnz; try contradiction; (split; [ reflexivity | intuition discriminate ]).
Qed.

(** With a zero increment [attemptsLeft] is [NaN]: no try-count text is ever
    set, and a failed attempt whose new count has reached the threshold and
    has no base rule stores a lockout of [thresholdPenaltyDuration]. *)
Theorem recordFailedAttempt_zero_increment :
  increment (thresholdRules cfg) = 0 ->
  left = NaN /\
  warnings (effects r) = [] /\
  (baseRules cfg !! newAttempt = None ->
   threshold (thresholdRules cfg) <= newAttempt ->
   dispatched (effects r) = [lockedOut (thresholdPenaltyDuration (thresholdRules cfg))]).
Proof.
  intros Hinc.
  assert (Hleft : left = NaN).
  { subst left. unfold attemptsLeft. rewrite Hinc. reflexivity. }
  split; [ exact Hleft | ].
  rewrite recordFailedAttempt_dispatched, recordFailedAttempt_effects, Hleft.
  cbn [js_gt js_strict_eq orb].
  split.
  - destruct (negb inlineMessagesEnabled && _), (getLockoutPenalty cfg newAttempt);
      reflexivity.
  - intros Hbase Hthr.
    rewrite (getLockoutPenalty_zero_increment cfg newAttempt Hinc Hbase Hthr). reflexivity.
Qed.

(** A failed attempt speaks through one channel only: with inline messages
    enabled it never touches the alert modal, with them disabled it never
    sets the inline field; and it opens the alert modal exactly when inline
    messages are disabled and the new count has no non-zero penalty. *)
Theorem recordFailedAttempt_one_channel :
  forallb (fun e => negb (if inlineMessagesEnabled then uses_modal e else uses_inline e))
          (effects r) = true /\
  (In (SetAlertModalVisible true) (effects r) <->
   inlineMessagesEnabled = false /\
   js_not_opt (getLockoutPenalty cfg newAttempt) = true).
Proof.
  rewrite recordFailedAttempt_effects. subst text.
  destruct inlineMessagesEnabled, (js_not_opt (getLockoutPenalty cfg newAttempt)),
    (js_gt left 1), (js_strict_eq left 1), (getLockoutPenalty cfg newAttempt);
    cbn; (split; [ reflexivity | ]); split; try (intros [? ?]; discriminate);
    intuition discriminate.
Qed.

Lemma recordFailedAttempt_returns : completion r = Returned tt.
Proof.
  subst r left newAttempt. unfold recordFailedAttempt, warn, attemptLockout.
  destruct (getLockoutPenalty cfg (loginAttempts (loginAttempt store) + 1)) as [p | ];
    destruct (js_gt (attemptsLeft cfg (loginAttempts (loginAttempt store) + 1)) 1),
      (js_strict_eq (attemptsLeft cfg (loginAttempts (loginAttempt store) + 1)) 1),
      inlineMessagesEnabled;
    try destruct (js_not_opt (Some p)); reflexivity.
Qed.

Lemma recordFailedAttempt_never_authenticates (status : bool) :
  ~ In (SetAuthenticated status) (effects r).
Proof.
  rewrite recordFailedAttempt_effects. subst text.
  destruct (negb inlineMessagesEnabled && _), (js_gt left 1), (js_strict_eq left 1),
    (getLockoutPenalty cfg newAttempt), inlineMessagesEnabled;
    cbn; intuition discriminate.
Qed.

Lemma recordFailedAttempt_continue_enabled_iff :
  In (SetContinueEnabled true) (effects r) <->
  js_gt left 1 || js_strict_eq left 1 = true.
Proof.
  rewrite recordFailedAttempt_effects. subst text.
  destruct (negb inlineMessagesEnabled && _), (js_gt left 1), (js_strict_eq left 1),
    (getLockoutPenalty cfg newAttempt), inlineMessagesEnabled;
    cbn; intuition discriminate.
Qed.

End FailedAttemptEffects.

Lemma recordFailedAttempt_always_counts_witness :
  exists payload,
    dispatched (effects (recordFailedAttempt coveringConfig false (storeWith 4 None None) 1000))
    = [ATTEMPT_UPDATED payload] /\
    payload_loginAttempts payload = Some (loginAttempts (loginAttempt (storeWith 4 None None)) + 1).
Proof.
  apply (recordFailedAttempt_always_counts coveringConfig false (storeWith 4 None None) 1000);
    [ reflexivity | discriminate | discriminate ].
Defined.

Lemma recordFailedAttempt_lockout_payload_witness :
  exists penalty,
    getLockoutPenalty coveringConfig (loginAttempts (loginAttempt (storeWith 4 None None)) + 1)
    = Some penalty /\
    penalty <> 0 /\
    displayLockoutWarning coveringConfig (storeWith 4 None None) = true.
Proof.
  destruct (recordFailedAttempt_lockout_payload coveringConfig false (storeWith 4 None None)
              1000
              {| payload_loginAttempts := Some 5;
                 payload_lockoutDate := Some (Some 61000);
                 payload_servedPenalty := Some (Some false) |})
    as (penalty & Hpen & Hpayload & _ & _ & Hwarn).
  - left. reflexivity.
  - discriminate.
  - exists penalty.
    assert (Hnz : penalty <> 0).
    { vm_compute in Hpen. injection Hpen as <-. discriminate. }
    split; [ exact Hpen | split; [ exact Hnz | exact (proj1 (Hwarn Hnz)) ] ].
Defined.

Lemma recordFailedAttempt_zero_increment_witness :
  increment (thresholdRules zeroIncrementConfig) = 0 /\
  dispatched (effects (recordFailedAttempt zeroIncrementConfig true (storeWith 6 None None) 1000))
  = [ATTEMPT_UPDATED {| payload_loginAttempts := Some 7;
                        payload_lockoutDate := Some (Some 61000);
                        payload_servedPenalty := Some (Some false) |}].
Proof.
  split; [ reflexivity | ].
  apply (recordFailedAttempt_zero_increment zeroIncrementConfig true (storeWith 6 None None)
           1000 eq_refl); [ reflexivity | discriminate ].
Defined.

(** ** The whole unlock callback *)

Lemma dispatched_app (es es' : list Effect) :
  dispatched (es ++ es') = dispatched es ++ dispatched es'.
Proof.
  induction es as [ | e es IH ]; [ reflexivity | ].
  destruct e; simpl; rewrite IH; reflexivity.
Qed.

Lemma recordSuccessfulAttempt_effects (store : State) :
  recordSuccessfulAttempt store =
    ([Dispatch (ATTEMPT_UPDATED {| payload_loginAttempts := Some 0;
                                   payload_lockoutDate := None;
                                   payload_servedPenalty := None |});
      Dispatch (LOCKOUT_UPDATED false);
      SetAuthenticated true] ++ effects (gotoPostAuthScreens store),
     Returned tt).
Proof.
  unfold recordSuccessfulAttempt, gotoPostAuthScreens.
  destruct (postAuthScreens (onboarding store)) as [ | screen rest ];
    [ reflexivity | destruct (String.eqb screen ""); reflexivity ].
Qed.

Lemma gotoPostAuthScreens_navigates_only (store : State) (e : Effect) :
  In e (effects (gotoPostAuthScreens store)) -> exists screen, e = Navigate screen.
Proof.
  unfold gotoPostAuthScreens.
  destruct (postAuthScreens (onboarding store)) as [ | screen rest ]; [ intros [] | ].
  destruct (String.eqb screen ""); [ intros [] | ].
  intros [<- | []]. eexists. reflexivity.
Qed.

(** The acknowledgement of a served penalty that precedes the treatment of
    the answer (lines 288-292). *)
Lemma unlockWalletWithPIN_returned cfg inlineMessagesEnabled store now checkWalletPIN PIN
    (result : bool) :
  checkWalletPIN PIN = Returned result ->
  unlockWalletWithPIN cfg inlineMessagesEnabled store now checkWalletPIN PIN =
    (SetContinueEnabled false ::
     match servedPenalty (loginAttempt store) with
     | Some true => effects (unMarkServedPenalty store)
     | _ => []
     end
     ++ effects (if result then recordSuccessfulAttempt store
                 else recordFailedAttempt cfg inlineMessagesEnabled store now),
     Returned tt).
Proof.
  intros Hcheck. unfold unlockWalletWithPIN. rewrite Hcheck. destruct result.
  - rewrite recordSuccessfulAttempt_effects.
    destruct (servedPenalty (loginAttempt store)) as [[ | ] | ]; reflexivity.
  - pose proof (recordFailedAttempt_returns cfg inlineMessagesEnabled store now) as Hret.
    cbv zeta in Hret.
    destruct (recordFailedAttempt cfg inlineMessagesEnabled store now) as [es c].
    simpl in Hret. subst c.
    destruct (servedPenalty (loginAttempt store)) as [[ | ] | ]; reflexivity.
Qed.

(** [unlockWalletWithPIN] reports the user authenticated exactly when
    [checkWalletPIN] resolved to [true], and never reports [false]. *)
Theorem unlockWalletWithPIN_authenticates_iff cfg inlineMessagesEnabled store now
    checkWalletPIN PIN :
  let r := unlockWalletWithPIN cfg inlineMessagesEnabled store now checkWalletPIN PIN in
  (In (SetAuthenticated true) (effects r) <-> checkWalletPIN PIN = Returned true) /\
  ~ In (SetAuthenticated false) (effects r).
Proof.
  cbv zeta. destruct (checkWalletPIN PIN) as [[ | ] | err] eqn:Hcheck.
  - rewrite (unlockWalletWithPIN_returned _ _ _ _ _ _ _ Hcheck).
    rewrite recordSuccessfulAttempt_effects. cbn [effects fst].
    split.
    + split; [ reflexivity | intros _ ].
      right. apply in_or_app. right. apply in_or_app. left. simpl. auto.
    + intros [Hin | Hin]; [ discriminate | ].
      apply in_app_or in Hin. destruct Hin as [Hin | Hin].
      * destruct (servedPenalty (loginAttempt store)) as [[ | ] | ];
          simpl in Hin; intuition discriminate.
      * apply in_app_or in Hin. destruct Hin as [Hin | Hin];
          [ simpl in Hin; intuition discriminate | ].
        apply gotoPostAuthScreens_navigates_only in Hin. destruct Hin; discriminate.
  - rewrite (unlockWalletWithPIN_returned _ _ _ _ _ _ _ Hcheck). cbn [effects fst].
    assert (Hnever : forall status,
      ~ In (SetAuthenticated status)
          (SetContinueEnabled false ::
           match servedPenalty (loginAttempt store) with
           | Some true => effects (unMarkServedPenalty store)
           | _ => []
           end ++ fst (recordFailedAttempt cfg inlineMessagesEnabled store now))).
    { intros status [Hin | Hin]; [ discriminate | ].
      apply in_app_or in Hin. destruct Hin as [Hin | Hin].
      - destruct (servedPenalty (loginAttempt store)) as [[ | ] | ];
          simpl in Hin; intuition discriminate.
      - exact (recordFailedAttempt_never_authenticates _ _ _ _ _ Hin). }
    split; [ split; [ intros Hin; destruct (Hnever _ Hin) | discriminate ] | apply Hnever ].
  - unfold unlockWalletWithPIN. rewrite Hcheck. cbn.
    split; [ split; [ intuition discriminate | discriminate ] | intuition discriminate ].
Qed.

(** After [unlockWalletWithPIN] the continue button is enabled again only
    for a wrong PIN with at least one try left; after a correct PIN, a
    lockout, a wrong PIN with no try left, or a failed check, it stays
    disabled. *)
Theorem unlockWalletWithPIN_enables_continue_iff cfg inlineMessagesEnabled store now
    checkWalletPIN PIN :
  let left := attemptsLeft cfg (loginAttempts (loginAttempt store) + 1) in
  In (SetContinueEnabled true)
     (effects (unlockWalletWithPIN cfg inlineMessagesEnabled store now checkWalletPIN PIN)) <->
  checkWalletPIN PIN = Returned false /\ js_gt left 1 || js_strict_eq left 1 = true.
Proof.
  cbv zeta. destruct (checkWalletPIN PIN) as [[ | ] | err] eqn:Hcheck.
  - rewrite (unlockWalletWithPIN_returned _ _ _ _ _ _ _ Hcheck).
    rewrite recordSuccessfulAttempt_effects. cbn [effects fst].
    split; [ | intros [? _]; discriminate ].
    intros [Hin | Hin]; [ discriminate | ].
    apply in_app_or in Hin. destruct Hin as [Hin | Hin].
    + destruct (servedPenalty (loginAttempt store)) as [[ | ] | ];
        simpl in Hin; intuition discriminate.
    + apply in_app_or in Hin. destruct Hin as [Hin | Hin];
        [ simpl in Hin; intuition discriminate | ].
      apply gotoPostAuthScreens_navigates_only in Hin. destruct Hin; discriminate.
  - rewrite (unlockWalletWithPIN_returned _ _ _ _ _ _ _ Hcheck). cbn [effects fst].
    pose proof (recordFailedAttempt_continue_enabled_iff cfg inlineMessagesEnabled store now)
      as Hiff. cbv zeta in Hiff. unfold effects in Hiff.
    split.
    + intros [Hin | Hin]; [ discriminate | ].
      split; [ reflexivity | ]. apply Hiff.
      apply in_app_or in Hin. destruct Hin as [Hin | Hin]; [ | exact Hin ].
      destruct (servedPenalty (loginAttempt store)) as [[ | ] | ];
        simpl in Hin; intuition discriminate.
    + intros [_ Hleft]. right. apply in_or_app. right. apply Hiff, Hleft.
  - unfold unlockWalletWithPIN. rewrite Hcheck. cbn.
    split; [ intuition discriminate | intros [? _]; discriminate ].
Qed.

(** When [checkWalletPIN] resolves, the actions [unlockWalletWithPIN]
    dispatches are: first, if [servedPenalty] is true, the acknowledgement
    carrying the unchanged count and explicit [undefined] for [lockoutDate]
    and [servedPenalty]; then those of the answer's treatment.  In
    particular a correct PIN after a served penalty dispatches the
    acknowledgement, the reset of the count and the clearing of the lockout
    notification, in this order. *)
Theorem unlockWalletWithPIN_acknowledges_first cfg inlineMessagesEnabled store now
    checkWalletPIN PIN (result : bool) :
  checkWalletPIN PIN = Returned result ->
  let acknowledgement :=
    ATTEMPT_UPDATED {| payload_loginAttempts := Some (loginAttempts (loginAttempt store));
                       payload_lockoutDate := Some None;
                       payload_servedPenalty := Some None |} in
  let r := unlockWalletWithPIN cfg inlineMessagesEnabled store now checkWalletPIN PIN in
  dispatched (effects r) =
    (if decide (servedPenalty (loginAttempt store) = Some true) then [acknowledgement] else [])
    ++ dispatched (effects (if result then recordSuccessfulAttempt store
                            else recordFailedAttempt cfg inlineMessagesEnabled store now)) /\
  (result = true ->
   servedPenalty (loginAttempt store) = Some true ->
   dispatched (effects r) =
     [acknowledgement;
      ATTEMPT_UPDATED {| payload_loginAttempts := Some 0;
                         payload_lockoutDate := None;
                         payload_servedPenalty := None |};
      LOCKOUT_UPDATED false]).
Proof.
  intros Hcheck. cbv zeta.
  rewrite (unlockWalletWithPIN_returned _ _ _ _ _ _ _ Hcheck). cbn [effects fst].
  change (SetContinueEnabled false :: ?l) with ([SetContinueEnabled false] ++ l).
  rewrite !dispatched_app. cbn [dispatched app].
  split.
  - f_equal.
    destruct (servedPenalty (loginAttempt store)) as [[ | ] | ]; reflexivity.
  - intros -> ->. rewrite recordSuccessfulAttempt_effects. unfold effects. cbn [fst].
    assert (Hnav : dispatched (fst (gotoPostAuthScreens store)) = []).
    { unfold gotoPostAuthScreens.
      destruct (postAuthScreens (onboarding store)) as [ | screen rest ];
        [ reflexivity | destruct (String.eqb screen ""); reflexivity ]. }
    rewrite dispatched_app, Hnav. reflexivity.
Qed.

Lemma unlockWalletWithPIN_acknowledges_first_witness :
  dispatched (effects (unlockWalletWithPIN scenarioConfig false
                         (storeWith 5 (Some 1000) (Some true)) 2000
                         (fun _ => Returned true) "123456")) =
    [ATTEMPT_UPDATED {| payload_loginAttempts := Some 5;
                        payload_lockoutDate := Some None;
                        payload_servedPenalty := Some None |};
     ATTEMPT_UPDATED {| payload_loginAttempts := Some 0;
                        payload_lockoutDate := None;
                        payload_servedPenalty := None |};
     LOCKOUT_UPDATED false].
Proof.
  exact (proj2 (unlockWalletWithPIN_acknowledges_first scenarioConfig false
                  (storeWith 5 (Some 1000) (Some true)) 2000
                  (fun _ => Returned true) "123456" true eq_refl) eq_refl eq_refl).
Defined.

(** ** [verifyPIN] and the completion handler *)

(** [verifyPIN] reports the user authenticated exactly when the wallet
    secret was found and the hash of the PIN with the secret's salt is the
    secret's key; it never reports [false]. *)
Theorem verifyPIN_authenticates_iff getWalletSecret hashPIN PIN :
  let r := verifyPIN getWalletSecret hashPIN PIN in
  (In (SetAuthenticated true) (effects r) <->
   exists secret,
     getWalletSecret = Returned (Some secret) /\
     hashPIN PIN (salt secret) = Returned (key secret)) /\
  ~ In (SetAuthenticated false) (effects r).
Proof.
  cbv zeta. unfold verifyPIN.
  destruct getWalletSecret as [[secret | ] | err].
  - simpl. destruct (hashPIN PIN (salt secret)) as [hashed | err] eqn:Hhash.
    + simpl. destruct (String.eqb_spec (key secret) hashed) as [Heq | Hne]; simpl.
      * split; [ | intuition discriminate ].
        split; [ intros _ | auto ].
        exists secret. rewrite Hhash, Heq. auto.
      * split; [ | intuition discriminate ].
        split; [ intuition discriminate | ].
        intros (secret' & Hsecret & Hhash'). injection Hsecret as <-.
        rewrite Hhash in Hhash'. injection Hhash' as ->. contradiction.
    + simpl. split; [ | intuition discriminate ].
      split; [ intuition discriminate | ].
      intros (secret' & Hsecret & Hhash'). injection Hsecret as <-. congruence.
  - simpl. split; [ | intuition discriminate ].
    split; [ intuition discriminate | intros (secret & Hsecret & _); discriminate ].
  - simpl. split; [ | intuition discriminate ].
    split; [ intuition discriminate | intros (secret & Hsecret & _); discriminate ].
Qed.

(** In [PINCheck] and [ChangeBiometrics] usage the completion handler never
    dispatches, so a wrong PIN there does not count towards a lockout; it
    never enables the continue button again; and what it does depends
    neither on the lockout configuration, the store, the clock nor
    [checkWalletPIN]. *)
Theorem onPINInputCompleted_recheck_leaves_store usage cfg inlineMessagesEnabled
    minPINLength store now checkWalletPIN getWalletSecret hashPIN PIN :
  usage <> WalletUnlock ->
  let r := onPINInputCompleted usage cfg inlineMessagesEnabled minPINLength store now
             checkWalletPIN getWalletSecret hashPIN PIN in
  dispatched (effects r) = [] /\
  ~ In (SetContinueEnabled true) (effects r) /\
  forall cfg' store' now' checkWalletPIN',
    onPINInputCompleted usage cfg' inlineMessagesEnabled minPINLength store' now'
      checkWalletPIN' getWalletSecret hashPIN PIN = r.
Proof.
  intros Husage. cbv zeta.
  assert (Hbody :
    onPINInputCompleted usage cfg inlineMessagesEnabled minPINLength store now
      checkWalletPIN getWalletSecret hashPIN PIN =
    if inlineMessagesEnabled && (String.length PIN <? minPINLength)%nat
    then perform (SetInlineMessageField PINTooShort)
    else (SetContinueEnabled false :: effects (verifyPIN getWalletSecret hashPIN PIN),
          Returned tt)).
  { unfold onPINInputCompleted. destruct (inlineMessagesEnabled && _); [ reflexivity | ].
    pose proof (verifyPIN_returns getWalletSecret hashPIN PIN) as Hret.
    destruct (verifyPIN getWalletSecret hashPIN PIN) as [es c]. simpl in Hret. subst c.
    destruct usage; [ | contradiction | ]; cbn; rewrite app_nil_r; reflexivity. }
  split; [ | split ].
  - rewrite Hbody. destruct (inlineMessagesEnabled && _); [ reflexivity | ].
    cbn [effects fst dispatched]. apply verifyPIN_dispatches_nothing.
  - rewrite Hbody. destruct (inlineMessagesEnabled && _); [ cbn; intuition discriminate | ].
    cbn [effects fst]. intros [Hin | Hin]; [ discriminate | ].
    unfold verifyPIN in Hin.
    destruct getWalletSecret as [[secret | ] | err]; simpl in Hin;
      try (intuition discriminate).
    destruct (hashPIN PIN (salt secret)) as [hashed | err]; simpl in Hin;
      try (intuition discriminate).
    destruct (negb (String.eqb (key secret) hashed)); simpl in Hin; intuition discriminate.
  - intros cfg' store' now' checkWalletPIN'.
    destruct usage; [ | contradiction | ]; reflexivity.
Qed.

Lemma onPINInputCompleted_recheck_leaves_store_witness :
  dispatched (effects (onPINInputCompleted PINCheck scenarioConfig false 6
                         (storeWith 4 None None) 1000 (fun _ => Returned false)
                         (Returned (Some {| key := "k"; salt := "s" |}))
                         (fun _ _ => Returned "other"%string) "123456")) = [].
Proof.
  apply (onPINInputCompleted_recheck_leaves_store PINCheck scenarioConfig false 6
           (storeWith 4 None None) 1000 (fun _ => Returned false)
           (Returned (Some {| key := "k"; salt := "s" |}))
           (fun _ _ => Returned "other"%string) "123456").
  discriminate.
Defined.

(** In [WalletUnlock] usage, unless the inline length check stops it, the
    completion handler disables the continue button and then does what
    [unlockWalletWithPIN] does; the wallet secret and [hashPIN] play no
    part. *)
Theorem onPINInputCompleted_unlocks cfg inlineMessagesEnabled minPINLength store now
    checkWalletPIN getWalletSecret hashPIN PIN :
  inlineMessagesEnabled && (String.length PIN <? minPINLength)%nat = false ->
  onPINInputCompleted WalletUnlock cfg inlineMessagesEnabled minPINLength store now
    checkWalletPIN getWalletSecret hashPIN PIN =
  (SetContinueEnabled false ::
   effects (unlockWalletWithPIN cfg inlineMessagesEnabled store now checkWalletPIN PIN),
   Returned tt).
Proof.
  intros Hlong. unfold onPINInputCompleted. rewrite Hlong.
  pose proof (unlockWalletWithPIN_returns cfg inlineMessagesEnabled store now
                checkWalletPIN PIN) as Hret.
  destruct (unlockWalletWithPIN cfg inlineMessagesEnabled store now checkWalletPIN PIN)
    as [es c].
  simpl in Hret. subst c. reflexivity.
Qed.

Lemma onPINInputCompleted_unlocks_witness :
  onPINInputCompleted WalletUnlock scenarioConfig true 6 (storeWith 0 None None) 1000
    (fun _ => Returned true) (Returned None) (fun _ _ => Threw "unused") "123456" =
  (SetContinueEnabled false ::
   effects (unlockWalletWithPIN scenarioConfig true (storeWith 0 None None) 1000
              (fun _ => Returned true) "123456"),
   Returned tt).
Proof.
  apply (onPINInputCompleted_unlocks scenarioConfig true 6 (storeWith 0 None None) 1000
           (fun _ => Returned true) (Returned None) (fun _ _ => Threw "unused") "123456").
  reflexivity.
Defined.

(** A PIN shorter than [minPINLength] is never verified through the
    continue button: either the button is disabled ([isContinueDisabled]),
    or inline messages are enabled and the handler sets the too-short
    message and stops, whatever the usage and the collaborators. *)
Theorem short_PIN_is_not_verified usage cfg inlineMessagesEnabled continueEnabled
    minPINLength store now checkWalletPIN getWalletSecret hashPIN PIN :
  (String.length PIN < minPINLength)%nat ->
  isContinueDisabled inlineMessagesEnabled continueEnabled minPINLength PIN = false ->
  onPINInputCompleted usage cfg inlineMessagesEnabled minPINLength store now
    checkWalletPIN getWalletSecret hashPIN PIN =
  ([SetInlineMessageField PINTooShort], Returned tt).
Proof.
  intros Hshort Henabled. unfold isContinueDisabled in Henabled.
  apply Nat.ltb_lt in Hshort. unfold onPINInputCompleted.
  destruct inlineMessagesEnabled.
  - rewrite Hshort. reflexivity.
  - rewrite Hshort, orb_true_r in Henabled. discriminate.
Qed.

Lemma short_PIN_is_not_verified_witness :
  onPINInputCompleted WalletUnlock scenarioConfig true 6 (storeWith 0 None None) 1000
    (fun _ => Returned true) (Returned None) (fun _ _ => Threw "unused") "123" =
  ([SetInlineMessageField PINTooShort], Returned tt).
Proof.
  apply (short_PIN_is_not_verified WalletUnlock scenarioConfig true true 6
           (storeWith 0 None None) 1000 (fun _ => Returned true) (Returned None)
           (fun _ _ => Threw "unused") "123").
  - vm_compute. lia.
  - reflexivity.
Defined.

(** ** The developer-menu trigger *)

Lemma fire_repeat_succ (k : Z) :
  0 <= k ->
  concat (repeat [EnableDeveloperMode true; NavigateDeveloper] (Z.to_nat (k + 1))) =
  [EnableDeveloperMode true; NavigateDeveloper]
  ++ concat (repeat [EnableDeveloperMode true; NavigateDeveloper] (Z.to_nat k)).
Proof.
  intros Hk. replace (Z.to_nat (k + 1)) with (S (Z.to_nat k)) by lia. reflexivity.
Qed.

(** From a counter value between 0 and 9 (the values the ref takes from its
    initial 0), [n] presses leave the counter at [(count + n) mod 10] and
    enable developer mode [(count + n) / 10] times: every tenth press fires,
    the nine before it only count. *)
Theorem pressDeveloperCounter_fires_every_tenth (n : nat) (count : Z) :
  0 <= count <= 9 ->
  pressDeveloperCounter n count =
    ((count + Z.of_nat n) mod 10,
     concat (repeat [EnableDeveloperMode true; NavigateDeveloper]
                    (Z.to_nat ((count + Z.of_nat n) / 10)))).
Proof.
  revert count. induction n as [ | n IH ]; intros count Hcount.
  - simpl. rewrite Z.add_0_r, Z.mod_small, Z.div_small by lia. reflexivity.
  - cbn [pressDeveloperCounter]. unfold incrementDeveloperMenuCounter,
      touchCountToEnableBiometrics.
    destruct (Z.leb_spec 9 count) as [Hnine | Hless].
    + assert (count = 9) by lia. subst count.
      rewrite (IH 0) by lia.
      replace (9 + Z.of_nat (S n)) with (Z.of_nat n + 1 * 10) by lia.
      rewrite Z.mod_add, Z.div_add by lia.
      rewrite fire_repeat_succ by (apply Z.div_pos; lia).
      reflexivity.
    + rewrite (IH (count + 1)) by lia.
      replace (count + 1 + Z.of_nat n) with (count + Z.of_nat (S n)) by lia.
      reflexivity.
Qed.

Lemma pressDeveloperCounter_fires_every_tenth_witness :
  pressDeveloperCounter 25 0 =
    (5, [EnableDeveloperMode true; NavigateDeveloper;
         EnableDeveloperMode true; NavigateDeveloper]).
Proof.
  rewrite (pressDeveloperCounter_fires_every_tenth 25 0); [ reflexivity | lia ].
Defined.

(** ** The biometry error flag *)

Lemma onBiometryError_toggles (k : nat) (prev : bool) :
  fold_left (fun p value => onBiometryError value p) (repeat None k) prev
  = xorb prev (Nat.odd k).
Proof.
  revert prev. induction k as [ | k IH ]; intros prev.
  - simpl. destruct prev; reflexivity.
  - cbn [repeat fold_left]. rewrite IH. rewrite Nat.odd_succ, <- Nat.negb_odd.
    unfold onBiometryError. simpl. destruct prev, (Nat.odd k); reflexivity.
Qed.

(** [biometricsErr] is decided by the last event that carried a value and
    the number of value-less events after it: each of those toggles the
    flag.  With no valued event at all the flag is on after an odd number of
    events. *)
Theorem biometricsErrAfter_last_value (values : list (option bool)) (b : bool) (k : nat) :
  biometricsErrAfter (values ++ Some b :: repeat None k) = xorb b (Nat.odd k) /\
  biometricsErrAfter (repeat None k) = Nat.odd k.
Proof.
  unfold biometricsErrAfter. split.
  - rewrite fold_left_app. cbn [fold_left].
    rewrite onBiometryError_toggles. reflexivity.
  - rewrite onBiometryError_toggles. reflexivity.
Qed.

(** ** Loading the credentials and the biometrics check *)

Lemma loadWalletCredentials_authenticates_iff usage store getWalletSecret :
  In (SetAuthenticated true) (effects (loadWalletCredentials usage store getWalletSecret)) <->
  usage = WalletUnlock /\ exists secret, getWalletSecret = Returned (Some secret).
Proof.
  unfold loadWalletCredentials.
  destruct usage;
    try (simpl; split; [ intros [] | intros [? _]; discriminate ]).
  destruct getWalletSecret as [[secret | ] | err].
  - split; [ intros _; split; [ reflexivity | eexists; reflexivity ] | intros _ ].
    unfold gotoPostAuthScreens.
    destruct (postAuthScreens (onboarding store)) as [ | screen rest ];
      [ | destruct (String.eqb screen "") ]; simpl; auto.
  - simpl. split; [ intros [] | intros [_ [secret Hsecret]]; discriminate ].
  - simpl. split; [ intros [] | intros [_ [secret Hsecret]]; discriminate ].
Qed.

Lemma in_credentials (e : BiometricsEffect) (es : list Effect) (tail : list BiometricsEffect) :
  (forall e', In e' tail -> e' = LoggerError) ->
  In e (map Credentials es ++ tail) ->
  e = LoggerError \/ exists e', e = Credentials e' /\ In e' es.
Proof.
  intros Htail Hin. apply in_app_or in Hin. destruct Hin as [Hin | Hin].
  - apply in_map_iff in Hin. destruct Hin as (e' & <- & Hin). right. eauto.
  - left. apply Htail, Hin.
Qed.

Section CheckBiometrics.

Variable useBiometry : bool.
Variable isBiometricsActive : Completion bool.
Variable disableBiometrics : Completion unit.
Variable usage : PINEntryUsage.
Variable store : State.
Variable getWalletSecret : Completion (option WalletSecret).

Let es : list BiometricsEffect :=
  checkBiometrics useBiometry isBiometricsActive disableBiometrics usage store
    getWalletSecret.

Let load : list BiometricsEffect :=
  map Credentials (fst (loadWalletCredentials usage store getWalletSecret))
  ++ match snd (loadWalletCredentials usage store getWalletSecret) with
     | Returned _ => []
     | Threw _ => [LoggerError]
     end.

Lemma checkBiometrics_cases :
  es = if negb useBiometry then []
       else match isBiometricsActive with
            | Threw _ => [LoggerError]
            | Returned true => load
            | Returned false =>
                SetBiometricsEnrollmentChange true ::
                match disableBiometrics with
                | Threw _ => [LoggerError]
                | Returned _ => DispatchUseBiometry false :: load
                end
            end.
Proof.
  subst es load. unfold checkBiometrics.
  destruct (loadWalletCredentials usage store getWalletSecret) as [l c].
  destruct useBiometry, isBiometricsActive as [[ | ] | ]; reflexivity.
Qed.

Lemma in_load (e : BiometricsEffect) :
  In e load ->
  e = LoggerError \/
  exists e', e = Credentials e' /\
             In e' (effects (loadWalletCredentials usage store getWalletSecret)).
Proof.
  subst load. apply in_credentials.
  destruct (snd (loadWalletCredentials usage store getWalletSecret));
    [ intros e' [] | intros e' [<- | []]; reflexivity ].
Qed.

(** The biometrics check unlocks the wallet by itself exactly when biometry
    is the user's preference, the usage is [WalletUnlock], the wallet secret
    could be read, and either biometrics are still active or they are not
    and disabling them succeeded. *)
Theorem checkBiometrics_authenticates_iff :
  In (Credentials (SetAuthenticated true)) es <->
  useBiometry = true /\
  usage = WalletUnlock /\
  (exists secret, getWalletSecret = Returned (Some secret)) /\
  (isBiometricsActive = Returned true \/
   (isBiometricsActive = Returned false /\ exists u, disableBiometrics = Returned u)).
Proof.
  assert (Hload : In (Credentials (SetAuthenticated true)) load <->
                  usage = WalletUnlock /\
                  exists secret, getWalletSecret = Returned (Some secret)).
  { rewrite <- loadWalletCredentials_authenticates_iff. split.
    - intros Hin. apply in_load in Hin.
      destruct Hin as [Hin | (e' & Heq & Hin)]; [ discriminate | ].
      injection Heq as <-. exact Hin.
    - intros Hin. subst load. apply in_or_app. left.
      apply in_map_iff. eexists. split; [ reflexivity | exact Hin ]. }
  rewrite checkBiometrics_cases.
  destruct useBiometry; cbn [negb];
    [ | split; [ intros [] | intros [? _]; discriminate ] ].
  destruct isBiometricsActive as [[ | ] | err].
  - rewrite Hload. intuition eauto.
  - destruct disableBiometrics as [u | err].
    + split.
      * intros [Hin | [Hin | Hin]]; try discriminate.
        apply Hload in Hin. intuition eauto.
      * intros (_ & Hu & Hs & _). right. right. apply Hload. auto.
    + split.
      * intros [Hin | [Hin | []]]; discriminate.
      * intros (_ & _ & _ & [Habs | [_ [u Habs]]]); discriminate.
  - split.
    + intros [Hin | []]; discriminate.
    + intros (_ & _ & _ & [Habs | [Habs _]]); discriminate.
Qed.

(** The biometrics check marks the enrollment as changed exactly when
    biometry is preferred and found inactive, and turns the preference off
    ([USE_BIOMETRY] with [false]) exactly when, in addition, disabling
    biometrics succeeded; with biometry not preferred it does nothing at
    all. *)
Theorem checkBiometrics_disables_iff :
  (In (SetBiometricsEnrollmentChange true) es <->
   useBiometry = true /\ isBiometricsActive = Returned false) /\
  (In (DispatchUseBiometry false) es <->
   useBiometry = true /\ isBiometricsActive = Returned false /\
   exists u, disableBiometrics = Returned u) /\
  (useBiometry = false -> es = []).
Proof.
  assert (Hload : forall e, In e load ->
            e <> SetBiometricsEnrollmentChange true /\ e <> DispatchUseBiometry false).
  { intros e Hin. apply in_load in Hin.
    destruct Hin as [-> | (e' & -> & _)]; split; discriminate. }
  rewrite checkBiometrics_cases.
  destruct useBiometry; cbn [negb];
    [ | split; [ | split ]; try reflexivity;
        (split; [ intros [] | intros [? _]; discriminate ]) ].
  split; [ | split; [ | discriminate ] ].
  - destruct isBiometricsActive as [[ | ] | err].
    + split; [ intros Hin; destruct (proj1 (Hload _ Hin)); reflexivity
             | intros [_ ?]; discriminate ].
    + split; [ auto | intros _; left; reflexivity ].
    + split; [ intros [Hin | []]; discriminate | intros [_ ?]; discriminate ].
  - destruct isBiometricsActive as [[ | ] | err].
    + split; [ intros Hin; destruct (proj2 (Hload _ Hin)); reflexivity
             | intros (_ & ? & _); discriminate ].
    + destruct disableBiometrics as [u | err].
      * split; [ eauto | intros _; right; left; reflexivity ].
      * split; [ intros [Hin | [Hin | []]]; discriminate
               | intros (_ & _ & [u Hu]); discriminate ].
    + split; [ intros [Hin | []]; discriminate | intros (_ & ? & _); discriminate ].
Qed.

End CheckBiometrics.

(** ** The cleanup of declined proofs *)

Lemma cleanDeclinedProof_unflagged (agent : bool) (proof : ProofExchangeRecord) :
  flagged proof = false -> cleanDeclinedProof agent proof = ([], proof).
Proof.
  unfold flagged, cleanDeclinedProof.
  destruct (customMetadata proof) as [meta | ]; [ | reflexivity ].
  destruct (delete_conn_after_seen meta) as [[ | ] | ]; [ discriminate | | ]; reflexivity.
Qed.

Lemma cleanDeclinedProof_clears (agent : bool) (proof : ProofExchangeRecord) :
  flagged (snd (cleanDeclinedProof agent proof)) = false.
Proof.
  unfold cleanDeclinedProof, flagged.
  destruct (customMetadata proof) as [meta | ] eqn:Hmeta; simpl; [ | rewrite Hmeta; reflexivity ].
  destruct (delete_conn_after_seen meta) as [[ | ] | ] eqn:Hflag; simpl;
    [ reflexivity | rewrite Hmeta, Hflag; reflexivity | rewrite Hmeta, Hflag; reflexivity ].
Qed.

(** Running the cleanup again on the records it left requests no deletion
    and changes no record, with or without an agent: a flagged proof asks
    for its deletion in the first run only. *)
Theorem cleanDeclinedProofs_idempotent (agent agent' : bool)
    (declinedProofs : list ProofExchangeRecord) :
  cleanDeclinedProofs agent' (snd (cleanDeclinedProofs agent declinedProofs)) =
  ([], snd (cleanDeclinedProofs agent declinedProofs)).
Proof.
  induction declinedProofs as [ | proof rest IH ]; [ reflexivity | ].
  cbn [cleanDeclinedProofs].
  pose proof (cleanDeclinedProof_clears agent proof) as Hclear.
  destruct (cleanDeclinedProof agent proof) as [deleted proof'].
  destruct (cleanDeclinedProofs agent rest) as [deleted' rest'].
  cbn [snd] in *. cbn [cleanDeclinedProofs].
  rewrite (cleanDeclinedProof_unflagged agent' proof' Hclear), IH. reflexivity.
Qed.

(** With an agent, the connections handed to [deleteById] are those of the
    flagged proofs, in order, a proof without connection id giving the empty
    id; without an agent nothing is deleted, yet the flags are cleared just
    the same. *)
Theorem cleanDeclinedProofs_deletions (declinedProofs : list ProofExchangeRecord) :
  fst (cleanDeclinedProofs true declinedProofs) =
    map (fun proof => default ""%string (connectionId proof))
        (List.filter flagged declinedProofs) /\
  fst (cleanDeclinedProofs false declinedProofs) = [] /\
  snd (cleanDeclinedProofs false declinedProofs) =
    snd (cleanDeclinedProofs true declinedProofs).
Proof.
  induction declinedProofs as [ | proof rest (IHdel & IHnone & IHsame) ];
    [ repeat split; reflexivity | ].
  cbn [cleanDeclinedProofs List.filter].
  destruct (cleanDeclinedProofs true rest) as [deleted rest1].
  destruct (cleanDeclinedProofs false rest) as [none rest2].
  cbn [fst snd] in *. subst deleted none rest2.
  unfold cleanDeclinedProof, flagged.
  destruct (customMetadata proof) as [meta | ]; [ | repeat split; reflexivity ].
  destruct (delete_conn_after_seen meta) as [[ | ] | ]; repeat split; reflexivity.
Qed.

(** The cleanup keeps the list's length and order; every record keeps its
    connection id and the other keys of its metadata, comes out unflagged,
    and is untouched if it was not flagged. *)
Theorem cleanDeclinedProofs_frame (agent : bool) (declinedProofs : list ProofExchangeRecord) :
  Forall2
    (fun proof proof' =>
       connectionId proof' = connectionId proof /\
       option_map other_keys (customMetadata proof')
         = option_map other_keys (customMetadata proof) /\
       flagged proof' = false /\
       (flagged proof = false -> proof' = proof))
    declinedProofs (snd (cleanDeclinedProofs agent declinedProofs)).
Proof.
  induction declinedProofs as [ | proof rest IH ]; [ constructor | ].
  cbn [cleanDeclinedProofs].
  pose proof (cleanDeclinedProof_clears agent proof) as Hclear.
  pose proof (cleanDeclinedProof_unflagged agent proof) as Hsame.
  assert (Hkeep : connectionId (snd (cleanDeclinedProof agent proof)) = connectionId proof /\
                  option_map other_keys (customMetadata (snd (cleanDeclinedProof agent proof)))
                  = option_map other_keys (customMetadata proof)).
  { unfold cleanDeclinedProof.
    destruct (customMetadata proof) as [meta | ] eqn:Hmeta; simpl;
      [ | rewrite Hmeta; auto ].
    destruct (delete_conn_after_seen meta) as [[ | ] | ]; simpl;
      try rewrite Hmeta; auto. }
  destruct (cleanDeclinedProof agent proof) as [deleted proof'].
  destruct (cleanDeclinedProofs agent rest) as [deleted' rest'].
  cbn [snd] in *. constructor; [ | exact IH ].
  destruct Hkeep as [Hid Hkeys].
  repeat split; try assumption.
  intros Hflag. specialize (Hsame Hflag). congruence.
Qed.

(** ** The gate along a trace of events *)

(** After any trace of events [RootStack] shows [MainStack] exactly when the
    completion event has occurred at some point of the trace and the latest
    store snapshot has [didAuthenticate]; so losing [didAuthenticate] brings
    the onboarding stack back, and regaining it brings [MainStack] back
    without a new completion event. *)
Theorem RootStack_rendered_after_events (store : State) (evs : list GateEvent) :
  rendered (run store evs) =
    if existsb is_completion evs
       && didAuthenticate (authentication (latestStore store evs))
    then MainStack else OnboardingStack.
Proof.
  destruct (steps_ok evs (mount store) (mount_ok store)) as [_ Hrendered].
  unfold run. rewrite Hrendered, steps_onboardingComplete, steps_snapshot.
  reflexivity.
Qed.

(** ** Instances *)

Lemma recordFailedAttempt_stores_next_count_or_nothing_witness :
  exists payload,
    ATTEMPT_UPDATED {| payload_loginAttempts := Some 1;
                       payload_lockoutDate := None;
                       payload_servedPenalty := None |} = ATTEMPT_UPDATED payload /\
    payload_loginAttempts payload = Some (loginAttempts (loginAttempt (storeWith 0 None None)) + 1).
Proof.
  apply (proj1 (proj2 (recordFailedAttempt_stores_next_count_or_nothing scenarioConfig false
                         (storeWith 0 None None) 1000))).
  left. reflexivity.
Defined.

Lemma checkBiometrics_disables_iff_witness :
  checkBiometrics false (Returned false) (Returned tt) WalletUnlock (storeWith 0 None None)
    (Returned (Some {| key := "k"; salt := "s" |})) = [].
Proof.
  apply (proj2 (proj2 (checkBiometrics_disables_iff false (Returned false) (Returned tt)
                         WalletUnlock (storeWith 0 None None)
                         (Returned (Some {| key := "k"; salt := "s" |}))))).
  reflexivity.
Defined.

Lemma cleanDeclinedProofs_frame_witness :
  let kept := {| connectionId := Some "conn-1"%string; customMetadata := None |} in
  let seen := {| connectionId := None;
                 customMetadata :=
                   Some {| delete_conn_after_seen := Some true;
                           other_keys := [("details_seen", "true")]%string |} |} in
  Forall2
    (fun proof proof' =>
       connectionId proof' = connectionId proof /\
       option_map other_keys (customMetadata proof')
         = option_map other_keys (customMetadata proof) /\
       flagged proof' = false /\
       (flagged proof = false -> proof' = proof))
    [kept; seen] (snd (cleanDeclinedProofs true [kept; seen])).
Proof.
  intros kept seen. exact (cleanDeclinedProofs_frame true [kept; seen]).
Defined.
